(** * A set-associative cache simulation (simulation.c), embedded in Rocq

    The development follows [simulation.c]:

    - [line_from_address] splits an address into offset, index and tag;
    - [in_cache] scans one set for a tag;
    - [add_to_cache] fills the first empty line of a set or replaces the
      oldest one;
    - [execute_mem] replays an array of actions and counts hits and misses.

    Conventions of the embedding.

    - [unsigned long] is 64 bits wide (LP64) and [unsigned int] is 32 bits
      wide; values are integers of [Z] and every wrap-around is written out
      ([ulong], [uint]).
    - The constants of [config.h] (which is not part of the sources at hand)
      are the fields of the record [config].
    - [time(NULL)] is an input of the program: the [n]-th call of a run
      returns [clk n], and a run threads the number of calls made so far.
    - Behaviour that C leaves undefined (reading the uninitialised local
      [oldest], indexing outside an array) is the result [None].
    - The member [buff] of [struct line] is never read and never written on
      its own; it is left out of the record. *)

From Stdlib Require Import Ascii.
From stdpp Require Import base numbers option list strings.

Local Open Scope Z_scope.

(** ** Machine integers *)

(** Conversion to [unsigned long], and arithmetic modulo [2^64]. *)
Definition ulong (z : Z) : Z := z mod 2 ^ 64.

(** Conversion to [unsigned int], and arithmetic modulo [2^32]. *)
Definition uint (z : Z) : Z := z mod 2 ^ 32.

Definition is_ulong (z : Z) : Prop := 0 <= z < 2 ^ 64.

(** ** config.h *)

Record config := {
  BLOCKS_SIZE : Z;        (* bytes in a block *)
  BLOCKS_SIZE_N : Z;      (* number of offset bits *)
  NB_BLOCKS : nat;        (* number of sets *)
  NB_BLOCKS_N : Z;        (* number of index bits *)
  ASSOCIATIVITY : nat;    (* lines in a set *)
  PREFETCHING : bool
}.

(** The shifts [1 << BLOCKS_SIZE_N] and [1 << NB_BLOCKS_N] are computed in
    [int]: they are defined for counts from 0 to 30. *)
Definition shifts_defined (cfg : config) : Prop :=
  0 <= BLOCKS_SIZE_N cfg <= 30 /\ 0 <= NB_BLOCKS_N cfg <= 30.

(** A configuration as the header comment of the program describes it: sizes
    are the powers of two of their bit counts, and a set has a line. *)
Record wf_config (cfg : config) : Prop := {
  wf_shifts : shifts_defined cfg;
  wf_block : BLOCKS_SIZE cfg = 2 ^ BLOCKS_SIZE_N cfg;
  wf_sets : Z.of_nat (NB_BLOCKS cfg) = 2 ^ NB_BLOCKS_N cfg;
  wf_assoc : (0 < ASSOCIATIVITY cfg)%nat
}.

(** ** Data *)

Record line := {
  index : Z;
  offset : Z;
  tag : Z;
  last_access : Z
}.

(** [typedef struct line* blocks; typedef blocks* cache;] *)
Abbreviation blocks := (list line) (only parsing).
Abbreviation cache := (list (list line)) (only parsing).

Record action := {
  rw : ascii;
  address : Z
}.

(** The character that ends the array of actions. *)
Definition NUL : ascii := Ascii.zero.

(** A line as [calloc] leaves it. *)
Definition zero_line : line :=
  {| index := 0; offset := 0; tag := 0; last_access := 0 |}.

(** ** line_from_address *)

Section Program.

Variable cfg : config.

(** [now] is the value that the call of [time(NULL)] returns. *)
Definition line_from_address (address now : Z) : line :=
  {| offset := Z.land address (ulong (Z.shiftl 1 (BLOCKS_SIZE_N cfg) - 1));
     index := Z.land (Z.shiftr address (BLOCKS_SIZE_N cfg))
                     (ulong (Z.shiftl 1 (NB_BLOCKS_N cfg) - 1));
     tag := Z.shiftr address (BLOCKS_SIZE_N cfg + NB_BLOCKS_N cfg);
     last_access := now |}.

(** ** in_cache *)

(** The loop of [in_cache]: [n] iterations are left, [i] is the counter. *)
Fixpoint in_cache_loop (set : blocks) (l : line) (n i : nat) : option bool :=
  match n with
  | O => Some false
  | S n' =>
      ln ← set !! i;
      if tag ln =? tag l then Some true
      else in_cache_loop set l n' (S i)
  end.

Definition in_cache (c : cache) (l : line) : option bool :=
  set ← c !! Z.to_nat (index l);
  in_cache_loop set l (ASSOCIATIVITY cfg) 0.

(** ** add_to_cache *)

(** The loop of [add_to_cache] and the assignment after it, on the set
    [c[l.index]]. The local [oldest] is [None] until it is assigned. *)
Fixpoint add_to_cache_loop (set : blocks) (l : line) (n i : nat)
    (oldest : option nat) (oldest_time : Z) : option blocks :=
  match n with
  | O =>
      o ← oldest;
      _ ← set !! o;
      Some (<[o := l]> set)
  | S n' =>
      ln ← set !! i;
      if tag ln =? 0 then Some (<[i := l]> set)
      else if last_access ln <? oldest_time
           then add_to_cache_loop set l n' (S i) (Some i) (last_access ln)
           else add_to_cache_loop set l n' (S i) oldest oldest_time
  end.

(** [now] is the value that the call of [time(NULL)] returns. *)
Definition add_to_cache (c : cache) (l : line) (now : Z) : option cache :=
  set ← c !! Z.to_nat (index l);
  set' ← add_to_cache_loop set l (ASSOCIATIVITY cfg) 0 None now;
  Some (<[Z.to_nat (index l) := set']> c).

(** ** execute_mem *)

(** The locals of [execute_mem] that live across iterations, and the number
    of calls of [time] made so far. *)
Record sim := {
  c : cache;
  hits : Z;
  misses : Z;
  ticks : nat
}.

Variable clk : nat -> Z.

(** The store after the allocation loop. Allocation is taken to succeed. *)
Definition calloc_cache : cache :=
  replicate (NB_BLOCKS cfg) (replicate (ASSOCIATIVITY cfg) zero_line).

Definition init : sim :=
  {| c := calloc_cache; hits := 0; misses := 0; ticks := 0 |}.

(** The prefetch of the block after [addr], lines 202 to 208. It runs on the
    store [c1] that already holds the missed line; [t] counts the calls of
    [time]. The result is the store, [misses] and the calls of [time]. *)
Definition prefetch (addr : Z) (c1 : cache) (misses : Z) (t : nat)
    : option (cache * Z * nat) :=
  if PREFETCHING cfg return option (cache * Z * nat) then
    let l := line_from_address (ulong (addr + BLOCKS_SIZE cfg)) (clk t) in
    hit ← in_cache c1 l;
    if (hit : bool) then Some (c1, misses, S t)
    else
      c2 ← add_to_cache c1 l (clk (S t));
      Some (c2, uint (misses + 1), S (S t))
  else Some (c1, misses, t).

(** The body of the replay loop, for the action [a]. *)
Definition step (a : action) (s : sim) : option sim :=
  let l := line_from_address (address a) (clk (ticks s)) in
  hit ← in_cache (c s) l;
  if (hit : bool) then
    Some {| c := c s; hits := uint (hits s + 1); misses := misses s;
            ticks := S (ticks s) |}
  else
    c1 ← add_to_cache (c s) l (clk (S (ticks s)));
    '(c2, m, t) ← prefetch (address a) c1 (misses s) (S (S (ticks s)));
    Some {| c := c2; hits := hits s; misses := uint (m + 1); ticks := t |}.

(** The replay loop over the array [actions]; the counter [i] is the number
    of elements already consumed. Running off the array without meeting the
    delimiter is undefined. The counter is an [unsigned int]: the list models
    arrays whose delimiter comes before position [2^32]. *)
Fixpoint replay (actions : list action) (s : sim) : option sim :=
  match actions with
  | [] => None
  | a :: rest =>
      if decide (rw a = NUL) then Some s
      else s' ← step a s; replay rest s'
  end.

(** The pair that [execute_mem] prints. *)
Definition execute_mem (actions : list action) : option (Z * Z) :=
  s ← replay actions init;
  Some (hits s, misses s).

End Program.

(** ** Notions the statements use *)

(** The recombination of the three fields, as the round-trip law writes it. *)
Definition recombine (cfg : config) (l : line) : Z :=
  Z.lor (Z.lor (Z.shiftl (tag l) (BLOCKS_SIZE_N cfg + NB_BLOCKS_N cfg))
               (Z.shiftl (index l) (BLOCKS_SIZE_N cfg)))
        (offset l).

(** What a lookup that tells valid lines from their flag [valid] would
    answer: a hit exactly when a valid line of the selected set holds the
    tag. *)
Definition lookup_by_validity (valid : line -> bool) (cfg : config)
    (c : cache) (l : line) : Prop :=
  in_cache cfg c l = Some true <->
  exists (set : blocks) (i : nat) (ln : line),
    c !! Z.to_nat (index l) = Some set /\ (i < ASSOCIATIVITY cfg)%nat /\
    set !! i = Some ln /\ valid ln = true /\ tag ln = tag l.

(** Position [v] holds the line of [set] with the smallest [last_access],
    the lowest such position when several lines share it. *)
Definition is_victim (set : blocks) (v : nat) : Prop :=
  exists lv, set !! v = Some lv /\
    (forall j lj, set !! j = Some lj -> last_access lv <= last_access lj) /\
    (forall j lj, (j < v)%nat -> set !! j = Some lj ->
                  last_access lv < last_access lj).

(** Position [p] holds the first empty line of [set]. *)
Definition is_first_empty (set : blocks) (p : nat) : Prop :=
  exists lp, set !! p = Some lp /\ tag lp = 0 /\
    (forall j lj, (j < p)%nat -> set !! j = Some lj -> tag lj <> 0).

(** A store of the shape that [execute_mem] allocates. *)
Definition wf_cache (cfg : config) (c : cache) : Prop :=
  length c = NB_BLOCKS cfg /\
  Forall (fun set : blocks => length set = ASSOCIATIVITY cfg) c.

(** A clock whose successive readings grow. *)
Definition strictly_increasing (clk : nat -> Z) : Prop :=
  forall m n : nat, (m < n)%nat -> clk m < clk n.

(** A clock that never goes back. *)
Definition non_decreasing (clk : nat -> Z) : Prop :=
  forall m n : nat, (m <= n)%nat -> clk m <= clk n.

(** Two lines of two runs, under the clocks [k1] and [k2], that agree but
    for their time stamps, which, when the lines are in use, were taken at
    the same call of [time], one of the first [t] calls. *)
Definition line_rel (k1 k2 : nat -> Z) (t : nat) (l1 l2 : line) : Prop :=
  index l1 = index l2 /\ offset l1 = offset l2 /\ tag l1 = tag l2 /\
  (tag l1 <> 0 ->
   exists n, (n < t)%nat /\ last_access l1 = k1 n /\ last_access l2 = k2 n).

Definition cache_rel (k1 k2 : nat -> Z) (t : nat) (c1 c2 : cache) : Prop :=
  Forall2 (Forall2 (line_rel k1 k2 t)) c1 c2.

Definition sim_rel (k1 k2 : nat -> Z) (s1 s2 : sim) : Prop :=
  cache_rel k1 k2 (ticks s1) (c s1) (c s2) /\
  hits s1 = hits s2 /\ misses s1 = misses s2 /\ ticks s1 = ticks s2.

(** The invariant of a run under the clock [k]: the store has its shape,
    and every line in use was stamped by one of the calls of [time] made
    so far. *)
Definition sim_inv (cfg : config) (k : nat -> Z) (s : sim) : Prop :=
  wf_cache cfg (c s) /\ cache_rel k k (ticks s) (c s) (c s).

(** ** Configurations and traces of the examples *)

(** The configuration of the header comment: blocks of 128 bytes (7 offset
    bits), 2 sets (1 index bit), 4 lines in a set, no prefetching. *)
Definition example_config : config :=
  {| BLOCKS_SIZE := 128; BLOCKS_SIZE_N := 7; NB_BLOCKS := 2; NB_BLOCKS_N := 1;
     ASSOCIATIVITY := 4; PREFETCHING := false |}.

(** The same with prefetching. *)
Definition prefetch_config : config :=
  {| BLOCKS_SIZE := 128; BLOCKS_SIZE_N := 7; NB_BLOCKS := 2; NB_BLOCKS_N := 1;
     ASSOCIATIVITY := 4; PREFETCHING := true |}.

(** The same with 2 lines in a set. *)
Definition two_way_config : config :=
  {| BLOCKS_SIZE := 128; BLOCKS_SIZE_N := 7; NB_BLOCKS := 2; NB_BLOCKS_N := 1;
     ASSOCIATIVITY := 2; PREFETCHING := false |}.

(** A line [R: 0x<a>] of the input file, and the delimiter that
    [read_action_from_file] writes after the last one (its address is never
    read). *)
Definition read (a : Z) : action := {| rw := "R"%char; address := a |}.
Definition delimiter : action := {| rw := NUL; address := 0 |}.

(** A clock that ticks at every call. *)
Definition ticking_clock (n : nat) : Z := Z.of_nat n + 1.

(** A clock of the resolution of a second: the first two calls fall into
    second 1, the next four into second 2, all later ones into second 3. *)
Definition coarse_clock (n : nat) : Z :=
  if (n <? 2)%nat then 1 else if (n <? 6)%nat then 2 else 3.

(** A clock that stands still: the whole run falls into one second. *)
Definition frozen_clock (n : nat) : Z := 5.

(** Addresses 0x100 to 0x400 select set 0 with the tags 1 to 4. *)
Definition thrash_trace : list action :=
  [read 256; read 512; read 768; read 1024; read 768; delimiter].

(** A set of [two_way_config] whose two lines are in use, both stamped 5. *)
Definition full_set_same_time : blocks :=
  [ {| index := 0; offset := 0; tag := 1; last_access := 5 |};
    {| index := 0; offset := 0; tag := 2; last_access := 5 |} ].

Definition new_line : line :=
  {| index := 0; offset := 0; tag := 3; last_access := 5 |}.

(** Five addresses, 0x100 to 0x500, that select set 0 with the tags 1 to 5:
    one more than [example_config] has lines in a set. *)
Definition five_in_one_set : list action :=
  [read 256; read 512; read 768; read 1024; read 1280; delimiter].

(** Accesses to 0x100 and 0x200, which fill set 0 of [two_way_config], then
    to address 0, to 0x300 and to address 0 again. *)
Definition tag0_trace : list action :=
  [read 256; read 512; read 0; read 768; read 0; delimiter].

(** Set 0 of [two_way_config] after the first three accesses of
    [tag0_trace] under [ticking_clock]: the line of address 0, stamped 5,
    has taken the place of the line of 0x100; the line of 0x200 was
    stamped 3. *)
Definition tag0_set_reached : blocks :=
  [ {| index := 0; offset := 0; tag := 0; last_access := 5 |};
    {| index := 0; offset := 0; tag := 2; last_access := 3 |} ].

(** A set of [two_way_config] whose first line holds the tag 0 and was
    stamped last, at time 8, after the line at position 1, stamped 5. *)
Definition set_with_tag0 : blocks :=
  [ {| index := 0; offset := 0; tag := 0; last_access := 8 |};
    {| index := 0; offset := 0; tag := 2; last_access := 5 |} ].

(** ** Further notions about the store *)

(** No two lines of a set hold the same tag, the tag 0 of empty lines
    apart. *)
Definition distinct_tags (c : cache) : Prop :=
  Forall (fun set : blocks =>
            forall (i j : nat) (li lj : line),
              set !! i = Some li -> set !! j = Some lj ->
              tag li = tag lj -> tag li <> 0 -> i = j) c.

(** The addresses that a replay of [records] may bring into the store: the
    address of every record and, with prefetching, the address one block
    further. *)
Definition touched (cfg : config) (records : list action) : list Z :=
  flat_map (fun a =>
              if PREFETCHING cfg
              then [address a; ulong (address a + BLOCKS_SIZE cfg)]
              else [address a]) records.

(** Every line in use of the store [c] was computed from one of the
    addresses [addrs] and sits in the set of its index. *)
Definition brought_in (cfg : config) (addrs : list Z) (c : cache) : Prop :=
  forall (idx : nat) (set : blocks) (i : nat) (ln : line),
    c !! idx = Some set -> set !! i = Some ln -> tag ln <> 0 ->
    exists a t, a ∈ addrs /\ ln = line_from_address cfg a t /\
                idx = Z.to_nat (index ln).

(** A store of one set of one line, with prefetching. *)
Definition one_line_config : config :=
  {| BLOCKS_SIZE := 128; BLOCKS_SIZE_N := 7; NB_BLOCKS := 1; NB_BLOCKS_N := 0;
     ASSOCIATIVITY := 1; PREFETCHING := true |}.

(** ** read_action_from_file *)

(** An element of the array [actions] in memory. [malloc] and [realloc]
    leave memory indeterminate: a member is [None] until it is assigned. *)
Record cell := {
  cell_rw : option ascii;
  cell_address : option Z
}.

Definition fresh_cell : cell := {| cell_rw := None; cell_address := None |}.

(** One call [fscanf(f, " %c: 0x%12x", &rw, &address)], as the loop sees
    it: the call returns [EOF], or it returns a count, having stored what it
    converted and having left alone the local it did not reach. [r] is the
    character that the call stored into [rw], if any. [a] is the value of
    the local [address] after the call, if the call left it wholly
    assigned, and [None] otherwise: [%12x] stores an [unsigned int], and
    the program hands it the address of an [unsigned long], so that what a
    call leaves in [address] is not told by the program. The text of the
    file and the conversions are the business of the C library. *)
Inductive scan :=
| Scan_EOF
| Scan_stored (r : option ascii) (a : option Z).

(** The locals of [read_action_from_file]; [rw] and [address] are [None]
    until a call of [fscanf] stores into them. The file is taken to open and
    the allocations to succeed. *)
Record reader := {
  actions : list cell;
  nb_actions : Z;
  current_action : Z;
  local_rw : option ascii;
  local_address : option Z
}.

(** The locals before the loop: an array of 40 elements. *)
Definition reader_init : reader :=
  {| actions := replicate 40 fresh_cell; nb_actions := 40;
     current_action := 0; local_rw := None; local_address := None |}.

(** The body of the loop, after a call that stored [r] and [a]. The counters
    are [unsigned int]; [realloc] keeps the elements that fit the new size
    and adds indeterminate ones; a write outside the array is undefined. *)
Definition reader_body (r : option ascii) (a : option Z) (st : reader)
    : option reader :=
  let rw' := match r with Some x => Some x | None => local_rw st end in
  let address' := match a with Some x => Some x | None => local_address st end in
  let grow := uint (current_action st + 2) >? nb_actions st in
  let nb := if grow then uint (nb_actions st + 40) else nb_actions st in
  let arr :=
    if grow then resize (Z.to_nat nb) fresh_cell (actions st)
    else actions st in
  _ ← arr !! Z.to_nat (current_action st);
  Some {| actions :=
            <[Z.to_nat (current_action st) :=
                {| cell_rw := rw'; cell_address := address' |}]> arr;
          nb_actions := nb;
          current_action := uint (current_action st + 1);
          local_rw := rw';
          local_address := address' |}.

(** The loop over the successive calls of [fscanf]; it ends at the first
    call that returns [EOF]. *)
Fixpoint reader_loop (scans : list scan) (st : reader) : option reader :=
  match scans with
  | [] => None
  | Scan_EOF :: _ => Some st
  | Scan_stored r a :: rest =>
      st' ← reader_body r a st;
      reader_loop rest st'
  end.

(** The array that [read_action_from_file] returns: after the loop, the
    member [rw] of the element at [current_action] is set to the
    delimiter; its member [address] stays as it was. *)
Definition read_action_from_file (scans : list scan) : option (list cell) :=
  st ← reader_loop scans reader_init;
  cl ← actions st !! Z.to_nat (current_action st);
  Some (<[Z.to_nat (current_action st) :=
            {| cell_rw := Some NUL; cell_address := cell_address cl |}]>
          (actions st)).

(** An array of actions as [execute_mem] may find it in the memory [arr]:
    it has the value of every member that was assigned, and any value where
    none was. *)
Definition cell_holds (cl : cell) (a : action) : Prop :=
  (forall r, cell_rw cl = Some r -> rw a = r) /\
  (forall x, cell_address cl = Some x -> address a = x).

Definition memory_holds (arr : list cell) (acts : list action) : Prop :=
  Forall2 cell_holds arr acts.

(** The element that ends the array: its [rw] is the delimiter and its
    [address] was never assigned. *)
Definition delimiter_cell : cell :=
  {| cell_rw := Some NUL; cell_address := None |}.

(** A call of [fscanf] that did not return [EOF], from what it stored. *)
Definition stored_scan (p : option ascii * option Z) : scan :=
  Scan_stored p.1 p.2.

(** The invariant of the loop of [read_action_from_file]: [cells] are the
    elements written so far, the size of the array is the multiple of 40
    after their number, and the elements after them are as allocated. *)
Definition reader_inv (cells : list cell) (st : reader) : Prop :=
  current_action st = Z.of_nat (length cells) /\
  nb_actions st = 40 * (Z.of_nat (length cells) / 40 + 1) /\
  actions st
  = cells ++ replicate (Z.to_nat (nb_actions st) - length cells) fresh_cell.

(** * Address decomposition *)

Section Decompose.

Variable cfg : config.

Lemma ulong_small z : is_ulong z -> ulong z = z.
Proof. unfold is_ulong, ulong. intros H. apply Z.mod_small. lia. Qed.

(** The masks are computed in [int] and converted to [unsigned long]: for a
    count the shift is defined at, the conversion changes nothing. *)
Lemma mask_ones n : 0 <= n <= 30 -> ulong (Z.shiftl 1 n - 1) = Z.ones n.
Proof.
  intros Hn. rewrite Z.shiftl_1_l, Z.ones_equiv, <- Z.sub_1_r.
  apply ulong_small. unfold is_ulong.
  assert (0 < 2 ^ n) by (apply Z.pow_pos_nonneg; lia).
  assert (2 ^ n <= 2 ^ 30) by (apply Z.pow_le_mono_r; lia).
  assert (2 ^ 30 < 2 ^ 64) by (apply Z.pow_lt_mono_r; lia).
  lia.
Qed.

Lemma offset_ones a now :
  shifts_defined cfg ->
  offset (line_from_address cfg a now) = Z.land a (Z.ones (BLOCKS_SIZE_N cfg)).
Proof. intros [Hb _]. simpl. by rewrite mask_ones. Qed.

Lemma index_ones a now :
  shifts_defined cfg ->
  index (line_from_address cfg a now)
  = Z.land (Z.shiftr a (BLOCKS_SIZE_N cfg)) (Z.ones (NB_BLOCKS_N cfg)).
Proof. intros [_ Hn]. simpl. by rewrite mask_ones. Qed.

Lemma land_ones_bounds x n : 0 <= n -> 0 <= Z.land x (Z.ones n) < 2 ^ n.
Proof.
  intros Hn. rewrite Z.land_ones by done. apply Z.mod_pos_bound.
  apply Z.pow_pos_nonneg; lia.
Qed.

Lemma index_bounds a now :
  shifts_defined cfg ->
  0 <= index (line_from_address cfg a now) < 2 ^ NB_BLOCKS_N cfg.
Proof.
  intros Hs. rewrite index_ones by done. apply land_ones_bounds.
  destruct Hs as [_ ?]. lia.
Qed.

(** The set an address selects exists in a store of [NB_BLOCKS] sets. *)
Lemma index_in_range a now :
  wf_config cfg ->
  (Z.to_nat (index (line_from_address cfg a now)) < NB_BLOCKS cfg)%nat.
Proof.
  intros Hwf. pose proof (index_bounds a now (wf_shifts _ Hwf)) as Hi.
  pose proof (wf_sets _ Hwf). lia.
Qed.

End Decompose.

(** C7. Round trip: for a configuration whose shifts are defined and an
    address of 64 bits, the fields that [line_from_address] computes
    recombine, as
    [(tag << (offset_bits + index_bits)) | (index << offset_bits) | offset],
    to the address itself. *)
Theorem line_from_address_roundtrip (cfg : config) (a now : Z) :
  shifts_defined cfg -> is_ulong a ->
  recombine cfg (line_from_address cfg a now) = a.
Proof.
  intros Hs Ha. unfold recombine.
  rewrite offset_ones, index_ones by done. cbn [tag line_from_address].
  destruct Hs as [Hb Hn].
  set (ob := BLOCKS_SIZE_N cfg) in *. set (ib := NB_BLOCKS_N cfg) in *.
  apply Z.bits_inj'. intros i Hi.
  rewrite !Z.lor_spec, !Z.shiftl_spec, !Z.land_spec, !Z.testbit_ones by lia.
  destruct (Z.ltb_spec i ob) as [Hlo|Hlo].
  - rewrite (Z.testbit_neg_r _ (i - (ob + ib))), (Z.testbit_neg_r _ (i - ob))
      by lia.
    replace (0 <=? i) with true by (symmetry; apply Z.leb_le; lia).
    simpl. by rewrite andb_true_r.
  - rewrite !andb_false_r, orb_false_r.
    rewrite (Z.shiftr_spec a ob) by lia.
    replace (i - ob + ob) with i by lia.
    replace (0 <=? i - ob) with true by (symmetry; apply Z.leb_le; lia).
    destruct (Z.ltb_spec (i - ob) ib) as [Hmid|Hhi].
    + rewrite (Z.testbit_neg_r _ (i - (ob + ib))) by lia.
      simpl. by rewrite andb_true_r.
    + rewrite Z.shiftr_spec by lia.
      replace (i - (ob + ib) + (ob + ib)) with i by lia.
      simpl. by rewrite andb_false_r, orb_false_r.
Qed.

Lemma line_from_address_roundtrip_witness :
  recombine example_config
    (line_from_address example_config 0x123456789ABCDEF 0)
  = 0x123456789ABCDEF.
Proof.
  apply (line_from_address_roundtrip example_config 0x123456789ABCDEF 0).
  - unfold shifts_defined. simpl. lia.
  - unfold is_ulong. lia.
Defined.

(** C8. For a well-formed configuration and every address of 64 bits,
    [line_from_address] returns (it has no error result) the line with
    [offset = address & (block_size - 1)],
    [index = (address >> offset_bits) & (num_sets - 1)] and
    [tag = address >> (offset_bits + index_bits)], where [offset_bits] and
    [index_bits] are the binary logarithms of the block size and of the
    number of sets; the three values are exact (nothing is cut off) and fit
    the 64 bits of their fields. *)
Theorem line_from_address_fields (cfg : config) (a now : Z) :
  wf_config cfg -> is_ulong a ->
  let offset_bits := Z.log2 (BLOCKS_SIZE cfg) in
  let index_bits := Z.log2 (Z.of_nat (NB_BLOCKS cfg)) in
  let l := line_from_address cfg a now in
  offset l = Z.land a (BLOCKS_SIZE cfg - 1) /\
  index l = Z.land (Z.shiftr a offset_bits) (Z.of_nat (NB_BLOCKS cfg) - 1) /\
  tag l = Z.shiftr a (offset_bits + index_bits) /\
  is_ulong (offset l) /\ is_ulong (index l) /\ is_ulong (tag l).
Proof.
  intros Hwf Ha. destruct Hwf as [Hs Hblock Hsets Hassoc].
  pose proof Hs as [Hb Hn]. cbv zeta.
  rewrite Hblock, Hsets, !Z.log2_pow2 by lia.
  rewrite offset_ones, index_ones by done.
  rewrite !Z.ones_equiv, <- !Z.sub_1_r.
  split_and!; try done.
  - rewrite Z.sub_1_r, <- Z.ones_equiv.
    pose proof (land_ones_bounds a (BLOCKS_SIZE_N cfg) ltac:(lia)).
    assert (2 ^ BLOCKS_SIZE_N cfg <= 2 ^ 64) by (apply Z.pow_le_mono_r; lia).
    unfold is_ulong. lia.
  - rewrite Z.sub_1_r, <- Z.ones_equiv.
    pose proof (land_ones_bounds (Z.shiftr a (BLOCKS_SIZE_N cfg))
                  (NB_BLOCKS_N cfg) ltac:(lia)).
    assert (2 ^ NB_BLOCKS_N cfg <= 2 ^ 64) by (apply Z.pow_le_mono_r; lia).
    unfold is_ulong. lia.
  - cbn [tag line_from_address]. unfold is_ulong in *.
    rewrite Z.shiftr_div_pow2 by lia.
    assert (0 < 2 ^ (BLOCKS_SIZE_N cfg + NB_BLOCKS_N cfg))
      by (apply Z.pow_pos_nonneg; lia).
    split.
    + apply Z.div_pos; lia.
    + apply Z.le_lt_trans with a; [|lia].
      apply Z.div_le_upper_bound; [lia|]. nia.
Qed.

Lemma example_config_wf : wf_config example_config.
Proof.
  split; [unfold shifts_defined; simpl; lia|reflexivity|reflexivity|].
  simpl. lia.
Defined.

Lemma line_from_address_fields_witness :
  let offset_bits := Z.log2 (BLOCKS_SIZE example_config) in
  let index_bits := Z.log2 (Z.of_nat (NB_BLOCKS example_config)) in
  let l := line_from_address example_config 0x123456789ABCDEF 0 in
  offset l = Z.land 0x123456789ABCDEF (BLOCKS_SIZE example_config - 1) /\
  index l = Z.land (Z.shiftr 0x123456789ABCDEF offset_bits)
              (Z.of_nat (NB_BLOCKS example_config) - 1) /\
  tag l = Z.shiftr 0x123456789ABCDEF (offset_bits + index_bits) /\
  is_ulong (offset l) /\ is_ulong (index l) /\ is_ulong (tag l).
Proof.
  apply (line_from_address_fields example_config 0x123456789ABCDEF 0).
  - exact example_config_wf.
  - unfold is_ulong. lia.
Defined.

(** The address of the header comment: offset 1101111 (0x6F), index 1, and
    the remaining 49 bits as the tag. *)
Lemma header_comment_example :
  offset (line_from_address example_config 0x123456789ABCDEF 0) = 0x6F
  /\ index (line_from_address example_config 0x123456789ABCDEF 0) = 1
  /\ tag (line_from_address example_config 0x123456789ABCDEF 0)
     = 0x123456789ABCD.
Proof. split_and!; reflexivity. Qed.

(** * Lookup *)

Section Lookup.

Variable cfg : config.

(** The loop of [in_cache] over the positions [i] to [i + n - 1] of a set
    that has them all answers, and it answers 1 exactly when one of these
    positions holds the tag. *)
Lemma in_cache_loop_spec (set : blocks) (l : line) (n i : nat) :
  (i + n <= length set)%nat ->
  exists b, in_cache_loop set l n i = Some b /\
    (b = true <->
     exists j ln, (i <= j < i + n)%nat /\ set !! j = Some ln /\ tag ln = tag l).
Proof.
  revert i. induction n as [|n IH]; intros i Hlen; cbn [in_cache_loop].
  - exists false. split; [done|]. split; [done|].
    intros (j & ln & Hj & _). lia.
  - destruct (lookup_lt_is_Some_2 set i ltac:(lia)) as [ln Hln].
    rewrite Hln. simpl. destruct (Z.eqb_spec (tag ln) (tag l)) as [Heq|Hne].
    + exists true. split; [done|]. split; [|done].
      intros _. exists i, ln. split_and!; [lia|lia|done|done].
    + destruct (IH (S i) ltac:(lia)) as (b & Hb & Hiff).
      exists b. split; [done|]. rewrite Hiff. split.
      * intros (j & lj & Hj & Hlj & Ht). exists j, lj. split_and!; [lia|lia|done|done].
      * intros (j & lj & Hj & Hlj & Ht). exists j, lj.
        destruct (decide (j = i)) as [->|Hji]; [congruence|].
        split_and!; [lia|lia|done|done].
Qed.

Lemma in_cache_spec (c : cache) (l : line) (set : blocks) :
  c !! Z.to_nat (index l) = Some set ->
  length set = ASSOCIATIVITY cfg ->
  exists b, in_cache cfg c l = Some b /\
    (b = true <-> exists j ln, set !! j = Some ln /\ tag ln = tag l).
Proof.
  intros Hset Hlen. unfold in_cache. rewrite Hset. simpl.
  destruct (in_cache_loop_spec set l (ASSOCIATIVITY cfg) 0 ltac:(lia))
    as (b & Hb & Hiff).
  exists b. split; [done|]. rewrite Hiff. split.
  - intros (j & ln & _ & Hln & Ht). by exists j, ln.
  - intros (j & ln & Hln & Ht). exists j, ln. split_and!; [lia| |done|done].
    apply lookup_lt_Some in Hln. lia.
Qed.

(** Every set of the store that [execute_mem] allocates is a row of
    [ASSOCIATIVITY] lines of zeros. *)
Lemma calloc_cache_lookup (i : nat) :
  (i < NB_BLOCKS cfg)%nat ->
  calloc_cache cfg !! i = Some (replicate (ASSOCIATIVITY cfg) zero_line).
Proof. intros Hi. by apply lookup_replicate_2. Qed.

Lemma calloc_cache_wf : wf_cache cfg (calloc_cache cfg).
Proof.
  split.
  - apply length_replicate.
  - apply Forall_replicate, length_replicate.
Qed.

(** A tag of 0 is found in a fresh store: its first line compares equal. *)
Lemma in_cache_calloc_tag0 (l : line) :
  (Z.to_nat (index l) < NB_BLOCKS cfg)%nat ->
  (0 < ASSOCIATIVITY cfg)%nat ->
  tag l = 0 ->
  in_cache cfg (calloc_cache cfg) l = Some true.
Proof.
  intros Hi Hassoc Ht. unfold in_cache.
  rewrite calloc_cache_lookup by done. simpl.
  destruct (ASSOCIATIVITY cfg) as [|n]; [lia|]. simpl.
  by rewrite Ht.
Qed.

End Lookup.

(** * The body of the replay loop *)

Section Step.

Variable cfg : config.
Variable clk : nat -> Z.

Lemma uint_succ_succ (m : Z) : uint (uint (m + 1) + 1) = uint (m + 2).
Proof.
  unfold uint. rewrite Zplus_mod_idemp_l. f_equal. lia.
Qed.

Lemma step_hit (a : action) (s : sim) :
  in_cache cfg (c s) (line_from_address cfg (address a) (clk (ticks s)))
  = Some true ->
  step cfg clk a s
  = Some {| c := c s; hits := uint (hits s + 1); misses := misses s;
            ticks := S (ticks s) |}.
Proof. intros Hhit. unfold step. by rewrite Hhit. Qed.

Lemma step_miss_no_prefetch (a : action) (s : sim) (c1 : cache) :
  PREFETCHING cfg = false ->
  in_cache cfg (c s) (line_from_address cfg (address a) (clk (ticks s)))
  = Some false ->
  add_to_cache cfg (c s) (line_from_address cfg (address a) (clk (ticks s)))
    (clk (S (ticks s))) = Some c1 ->
  step cfg clk a s
  = Some {| c := c1; hits := hits s; misses := uint (misses s + 1);
            ticks := S (S (ticks s)) |}.
Proof.
  intros Hp Hmiss Hadd. unfold step, prefetch. by rewrite Hmiss, Hadd, Hp.
Qed.

(** One iteration leaves one counter alone and adds one to the other. *)
Lemma step_counts_no_prefetch (a : action) (s s' : sim) :
  PREFETCHING cfg = false ->
  step cfg clk a s = Some s' ->
  (hits s' = uint (hits s + 1) /\ misses s' = misses s) \/
  (hits s' = hits s /\ misses s' = uint (misses s + 1)).
Proof.
  intros Hp. unfold step, prefetch. rewrite Hp.
  destruct (in_cache cfg (c s) _) as [[|]|]; simpl; [| |done].
  - intros [= <-]. by left.
  - destruct (add_to_cache cfg (c s) _ _) as [c1|]; simpl; [|done].
    intros [= <-]. by right.
Qed.

End Step.

(** C9. An access that hits leaves the whole store as it was: the iteration
    returns, with the same store (no tag and no [last_access] of any line
    is touched), the same [misses], and [hits] one larger (in the 32 bits of
    the counter). *)
Theorem hit_leaves_store_unchanged (cfg : config) (clk : nat -> Z)
    (a : action) (s : sim) :
  in_cache cfg (c s) (line_from_address cfg (address a) (clk (ticks s)))
  = Some true ->
  exists s', step cfg clk a s = Some s' /\
    c s' = c s /\ hits s' = uint (hits s + 1) /\ misses s' = misses s.
Proof.
  intros Hhit. eexists. split; [by apply step_hit|]. done.
Qed.

Lemma hit_leaves_store_unchanged_witness :
  exists s', step example_config ticking_clock (read 0) (init example_config)
             = Some s' /\
    c s' = c (init example_config) /\
    hits s' = uint (hits (init example_config) + 1) /\
    misses s' = misses (init example_config).
Proof.
  apply (hit_leaves_store_unchanged example_config ticking_clock (read 0)
           (init example_config)).
  reflexivity.
Defined.

(** C3. In the store that [execute_mem] has just allocated, every line of
    which is zero, the lookup of any address whose tag is 0 answers 1; the
    first iteration on such an address adds one to [hits] and leaves the
    store as allocated (nothing is inserted). *)
Theorem first_access_tag0_hits (cfg : config) (clk : nat -> Z) (a : action) :
  wf_config cfg ->
  tag (line_from_address cfg (address a) (clk 0%nat)) = 0 ->
  in_cache cfg (calloc_cache cfg)
    (line_from_address cfg (address a) (clk 0%nat)) = Some true /\
  step cfg clk a (init cfg)
  = Some {| c := calloc_cache cfg; hits := 1; misses := 0; ticks := 1 |}.
Proof.
  intros Hwf Ht.
  assert (in_cache cfg (calloc_cache cfg)
            (line_from_address cfg (address a) (clk 0%nat)) = Some true)
    as Hhit.
  { apply in_cache_calloc_tag0; [|by destruct Hwf|done].
    by apply index_in_range. }
  split; [done|]. by rewrite step_hit.
Qed.

Lemma first_access_tag0_hits_witness :
  in_cache example_config (calloc_cache example_config)
    (line_from_address example_config (address (read 255))
       (frozen_clock 0%nat)) = Some true /\
  step example_config frozen_clock (read 255) (init example_config)
  = Some {| c := calloc_cache example_config; hits := 1; misses := 0;
            ticks := 1 |}.
Proof.
  apply (first_access_tag0_hits example_config frozen_clock (read 255)).
  - split; [unfold shifts_defined; simpl; lia|reflexivity|reflexivity|simpl; lia].
  - reflexivity.
Defined.

(** C5. With prefetching, an access to [A] that misses and whose line is
    inserted into the store [c1] is followed by one lookup of
    [A + BLOCKS_SIZE] in [c1]. When the lookup answers 1 the iteration ends
    with the store [c1] and one more miss; when it answers 0 the line of
    [A + BLOCKS_SIZE] is inserted by [add_to_cache] and the iteration ends
    with the resulting store and two more misses. Nothing else is looked up
    or inserted: the clock is read three times in the first case and four
    times in the second. *)
Theorem miss_prefetches_next_block (cfg : config) (clk : nat -> Z)
    (a : action) (s : sim) (c1 : cache) :
  PREFETCHING cfg = true ->
  let t := ticks s in
  let l := line_from_address cfg (address a) (clk t) in
  let next :=
    line_from_address cfg (ulong (address a + BLOCKS_SIZE cfg))
      (clk (S (S t))) in
  in_cache cfg (c s) l = Some false ->
  add_to_cache cfg (c s) l (clk (S t)) = Some c1 ->
  (in_cache cfg c1 next = Some true ->
   step cfg clk a s
   = Some {| c := c1; hits := hits s; misses := uint (misses s + 1);
             ticks := S (S (S t)) |}) /\
  (forall c2,
   in_cache cfg c1 next = Some false ->
   add_to_cache cfg c1 next (clk (S (S (S t)))) = Some c2 ->
   step cfg clk a s
   = Some {| c := c2; hits := hits s; misses := uint (misses s + 2);
             ticks := S (S (S (S t))) |}).
Proof.
  intros Hp t l next Hmiss Hadd. split.
  - intros Hnext. unfold step, prefetch. fold t l. rewrite Hmiss. simpl.
    rewrite Hadd, Hp. simpl. fold next. by rewrite Hnext.
  - intros c2 Hnext Hadd2. unfold step, prefetch. fold t l. rewrite Hmiss.
    simpl. rewrite Hadd, Hp. simpl. fold next. rewrite Hnext. simpl.
    rewrite Hadd2. simpl. by rewrite uint_succ_succ.
Qed.

Lemma miss_prefetches_next_block_witness :
  exists c1 c2,
    add_to_cache prefetch_config (c (init prefetch_config))
      (line_from_address prefetch_config 256 (ticking_clock 0%nat))
      (ticking_clock 1%nat) = Some c1 /\
    add_to_cache prefetch_config c1
      (line_from_address prefetch_config (ulong (256 + 128))
         (ticking_clock 2%nat))
      (ticking_clock 3%nat) = Some c2 /\
    step prefetch_config ticking_clock (read 256) (init prefetch_config)
    = Some {| c := c2; hits := 0; misses := 2; ticks := 4 |}.
Proof.
  eexists. eexists. split; [reflexivity|]. split; [reflexivity|].
  eapply (miss_prefetches_next_block prefetch_config ticking_clock (read 256)
            (init prefetch_config)); reflexivity.
Defined.

(** * The first access to address 0 *)

(** C1. Under the configuration of the header comment (blocks of 128 bytes,
    2 sets, 4 lines in a set, no prefetching) and whatever the clock reads,
    the replay of the two accesses to address 0 ends with 2 hits and no
    miss: the first access already finds the tag 0 in the zeroed store. *)
Theorem address_zero_twice (clk : nat -> Z) :
  execute_mem example_config clk [read 0; read 0; delimiter] = Some (2, 0).
Proof. reflexivity. Qed.

(** The same two accesses to an address whose tag is not 0 count one miss
    and one hit. *)
Lemma address_256_twice (clk : nat -> Z) :
  execute_mem example_config clk [read 256; read 256; delimiter]
  = Some (1, 1).
Proof. reflexivity. Qed.

(** Whatever flag of validity is read off a line, if it calls the lines of
    a fresh store invalid, then the lookup of address
    0 in the fresh store is not the lookup by validity: [in_cache] answers
    1 there, and no line of the store is valid. *)
Lemma in_cache_not_by_validity :
  ~ exists valid : line -> bool,
      valid zero_line = false /\
      lookup_by_validity valid example_config (calloc_cache example_config)
        (line_from_address example_config 0 0).
Proof.
  intros (valid & Hzero & Hhit & _).
  destruct (Hhit eq_refl) as (set & i & ln & Hset & Hi & Hln & Hvalid & _).
  assert (set = replicate 4 zero_line) as -> by (by injection Hset).
  apply lookup_replicate in Hln as [-> _]. congruence.
Qed.

(** * Insertion *)

Section Insert.

Variable cfg : config.

(** When the set has an empty line at or after position [i], the loop
    stores the new line at the first such position, whatever [oldest] and
    [oldest_time] are by then. *)
Lemma add_to_cache_loop_fills (set : blocks) (l : line) (p : nat) (lp : line) :
  set !! p = Some lp -> tag lp = 0 ->
  forall n i oldest oldest_time,
    (i <= p < i + n)%nat ->
    (forall j lj, (i <= j < p)%nat -> set !! j = Some lj -> tag lj <> 0) ->
    add_to_cache_loop set l n i oldest oldest_time = Some (<[p := l]> set).
Proof.
  intros Hp Hempty. induction n as [|n IH]; intros i oldest ot Hip Hfull.
  - lia.
  - cbn [add_to_cache_loop]. destruct (decide (i = p)) as [->|Hne].
    + rewrite Hp. simpl. by rewrite Hempty.
    + assert (i < length set)%nat as Hi
        by (apply lookup_lt_Some in Hp; lia).
      destruct (lookup_lt_is_Some_2 set i Hi) as [ln Hln].
      rewrite Hln. simpl.
      assert (tag ln <> 0) as Hnz by (apply (Hfull i); [lia|done]).
      apply Z.eqb_neq in Hnz. rewrite Hnz.
      destruct (last_access ln <? ot);
        apply IH; try lia; intros j lj Hj; apply Hfull; lia.
Qed.

(** The scan of a set without an empty line. Before position [i] no line is
    older than [oldest_time]; [oldest], once assigned, is the first position
    whose line has that time; and while [oldest] is not assigned, a line
    older than [oldest_time] is still to come. Then the loop ends with the
    new line in the place of the victim. *)
Lemma add_to_cache_loop_scan (set : blocks) (l : line) :
  Forall (fun ln => tag ln <> 0) set ->
  forall n i oldest oldest_time,
    (i + n = length set)%nat ->
    (forall j lj, (j < i)%nat -> set !! j = Some lj ->
                  oldest_time <= last_access lj) ->
    match oldest with
    | None =>
        exists j lj, (i <= j)%nat /\ set !! j = Some lj /\
                     last_access lj < oldest_time
    | Some o =>
        exists lo, set !! o = Some lo /\ last_access lo = oldest_time /\
          (forall j lj, (j < o)%nat -> set !! j = Some lj ->
                        oldest_time < last_access lj)
    end ->
    exists v, is_victim set v /\
      add_to_cache_loop set l n i oldest oldest_time = Some (<[v := l]> set).
Proof.
  intros Hfull. induction n as [|n IH]; intros i oldest ot Hlen Hlow Hold.
  - destruct oldest as [o|].
    + destruct Hold as (lo & Hlo & Hot & Hfirst).
      exists o. split.
      * exists lo. split_and!; [done| |].
        -- intros j lj Hlj. rewrite Hot. apply (Hlow j); [|done].
           apply lookup_lt_Some in Hlj. lia.
        -- intros j lj Hj Hlj. rewrite Hot. by apply (Hfirst j).
      * cbn [add_to_cache_loop]. simpl. by rewrite Hlo.
    + destruct Hold as (j & lj & Hj & Hlj & _).
      apply lookup_lt_Some in Hlj. lia.
  - cbn [add_to_cache_loop].
    destruct (lookup_lt_is_Some_2 set i ltac:(lia)) as [ln Hln].
    rewrite Hln. simpl.
    assert (tag ln <> 0) as Hnz
      by (apply (Forall_lookup_1 (fun ln => tag ln <> 0) set i ln Hfull Hln)).
    apply Z.eqb_neq in Hnz. rewrite Hnz.
    destruct (Z.ltb_spec (last_access ln) ot) as [Hlt|Hge].
    + apply IH; [lia| |].
      * intros j lj Hj Hlj. destruct (decide (j = i)) as [->|Hji].
        -- assert (lj = ln) as -> by congruence. lia.
        -- pose proof (Hlow j lj ltac:(lia) Hlj). lia.
      * exists ln. split_and!; [done|done|].
        intros j lj Hj Hlj. pose proof (Hlow j lj Hj Hlj). lia.
    + apply IH; [lia| |].
      * intros j lj Hj Hlj. destruct (decide (j = i)) as [->|Hji].
        -- assert (lj = ln) as -> by congruence. lia.
        -- apply (Hlow j); [lia|done].
      * destruct oldest as [o|]; [done|].
        destruct Hold as (j & lj & Hj & Hlj & Hlt).
        exists j, lj. split_and!; [|done|done].
        destruct (decide (j = i)) as [->|Hji]; [|lia].
        assert (lj = ln) as -> by congruence. lia.
Qed.

(** A set without an empty line, one line of which is older than the
    reading [now] of the clock, loses its oldest line. *)
Lemma add_to_cache_loop_evicts (set : blocks) (l : line) (now : Z) :
  Forall (fun ln => tag ln <> 0) set ->
  Exists (fun ln => last_access ln < now) set ->
  exists v, is_victim set v /\
    add_to_cache_loop set l (length set) 0 None now = Some (<[v := l]> set).
Proof.
  intros Hfull Hold. apply add_to_cache_loop_scan; [done|lia| |].
  - intros j lj Hj. lia.
  - apply Exists_exists in Hold as (lj & Hin & Hlt).
    apply list_elem_of_lookup in Hin as [j Hj].
    exists j, lj. split_and!; [lia|done|done].
Qed.

(** A set with an empty line receives the new line in its first one. *)
Lemma add_to_cache_loop_first_empty (set : blocks) (l : line) (now : Z) :
  Exists (fun ln => tag ln = 0) set ->
  exists p, is_first_empty set p /\
    add_to_cache_loop set l (length set) 0 None now = Some (<[p := l]> set).
Proof.
  intros Hex.
  assert (exists p, is_first_empty set p) as [p Hp].
  { clear l now. induction set as [|ln set IH]; [by apply Exists_nil in Hex|].
    destruct (decide (tag ln = 0)) as [Hz|Hnz].
    - exists 0%nat, ln. split_and!; [done|done|]. intros j lj Hj. lia.
    - apply Exists_cons in Hex as [Hz|Hex]; [done|].
      destruct (IH Hex) as (p & lp & Hlp & Hz & Hfirst).
      exists (S p), lp. split_and!; [done|done|].
      intros [|j] lj Hj Hlj; [by injection Hlj as <-|].
      apply (Hfirst j); [lia|done]. }
  exists p. split; [done|]. destruct Hp as (lp & Hlp & Hz & Hfirst).
  apply (add_to_cache_loop_fills set l p lp Hlp Hz).
  - apply lookup_lt_Some in Hlp. lia.
  - intros j lj Hj. apply Hfirst. lia.
Qed.

End Insert.

(** What the scan does when it can: when [add_to_cache] meets a set without
    an empty line, and some line of the set has a [last_access] below the
    reading of [time] that the scan starts from, then the line it replaces
    is the one with the smallest [last_access], the one at the lowest
    position when several share it. *)
Lemma add_to_cache_evicts_older (cfg : config) (c : cache) (l : line)
    (now : Z) (set : blocks) :
  c !! Z.to_nat (index l) = Some set ->
  length set = ASSOCIATIVITY cfg ->
  Forall (fun ln => tag ln <> 0) set ->
  Exists (fun ln => last_access ln < now) set ->
  exists v, is_victim set v /\
    add_to_cache cfg c l now
    = Some (<[Z.to_nat (index l) := <[v := l]> set]> c).
Proof.
  intros Hset Hlen Hfull Hold.
  destruct (add_to_cache_loop_evicts set l now Hfull Hold) as (v & Hv & Hloop).
  exists v. split; [done|]. unfold add_to_cache.
  rewrite Hset. simpl. rewrite <- Hlen, Hloop. done.
Qed.

(** One second later than the stamps of [full_set_same_time], the line at
    position 0 goes. *)
Lemma add_to_cache_evicts_older_example :
  add_to_cache two_way_config
    [full_set_same_time; replicate 2 zero_line] new_line 6
  = Some [<[0%nat := new_line]> full_set_same_time; replicate 2 zero_line].
Proof. reflexivity. Qed.

(** C4. The scan of [add_to_cache] does not start from the first line of
    the set but from the reading of the clock, and assigns the local
    [oldest] only for a line below that reading. The two lines of
    [full_set_same_time] are in use and share the time 5, so that position 0
    is the victim by the rule of the smallest [last_access] at the lowest
    position; when the clock still reads 5, no line is below the reading,
    [oldest] is read without having been assigned, and no line is chosen.
    So it is with the replay of five accesses to one set of
    [example_config] within one second. *)
Theorem add_to_cache_same_second_undefined :
  Forall (fun ln => tag ln <> 0) full_set_same_time /\
  is_victim full_set_same_time 0 /\
  add_to_cache two_way_config
    [full_set_same_time; replicate 2 zero_line] new_line 5 = None /\
  execute_mem example_config frozen_clock five_in_one_set = None.
Proof.
  split_and!.
  - repeat constructor; simpl; lia.
  - eexists. split_and!; [reflexivity| |].
    + intros [|[|j]] lj Hlj; simplify_eq/=; lia.
    + intros j lj Hj. lia.
  - reflexivity.
  - reflexivity.
Qed.

(** With a clock that ticks at every call the same five accesses are five
    misses. *)
Lemma five_in_one_set_ticking :
  execute_mem example_config ticking_clock five_in_one_set = Some (0, 5).
Proof. reflexivity. Qed.

(** A line whose tag is 0 is an empty line for [add_to_cache]: in
    [set_with_tag0] the line of tag 0 is the one stamped last, and it is the
    one that the next insertion overwrites, not the older line after it. *)
Lemma add_to_cache_takes_tag0_as_empty :
  is_victim set_with_tag0 1 /\
  add_to_cache two_way_config
    [set_with_tag0; replicate 2 zero_line] new_line 9
  = Some [<[0%nat := new_line]> set_with_tag0; replicate 2 zero_line].
Proof.
  split; [|reflexivity].
  eexists. split_and!; [reflexivity| |].
  - intros [|[|j]] lj Hlj; simplify_eq/=; lia.
  - intros [|[|j]] lj Hj Hlj; simplify_eq/=; lia.
Qed.

(** C2. The program keeps no mark of validity: the tag 0 is its mark of an
    empty line, and it is a tag of addresses as well. So the lookup of
    address 0 in the fresh store answers 1, although no line was inserted
    and no flag of validity could call a line of that store valid. And a
    line of tag 0 that was inserted is an empty line for the next
    insertion: after the first three accesses of [tag0_trace] the line of
    address 0 is in set 0, stamped last; the access to 0x300 overwrites it,
    although the line at position 1 is the older one, and the second access
    to address 0 misses: no hit, five misses. *)
Theorem tag_zero_taken_as_empty :
  in_cache example_config (calloc_cache example_config)
    (line_from_address example_config 0 0) = Some true /\
  (~ exists valid : line -> bool,
       valid zero_line = false /\
       lookup_by_validity valid example_config (calloc_cache example_config)
         (line_from_address example_config 0 0)) /\
  (exists s,
     replay two_way_config ticking_clock
       [read 256; read 512; read 0; delimiter] (init two_way_config)
     = Some s /\
     c s = [tag0_set_reached; replicate 2 zero_line] /\
     is_victim tag0_set_reached 1 /\
     add_to_cache two_way_config (c s)
       (line_from_address two_way_config 768 (ticking_clock 6))
       (ticking_clock 7)
     = Some [<[0%nat := line_from_address two_way_config 768
                          (ticking_clock 6)]> tag0_set_reached;
             replicate 2 zero_line]) /\
  execute_mem two_way_config ticking_clock tag0_trace = Some (0, 5).
Proof.
  split_and!.
  - reflexivity.
  - exact in_cache_not_by_validity.
  - eexists. split_and!; [reflexivity|reflexivity| |reflexivity].
    eexists. split_and!; [reflexivity| |].
    + intros [|[|j]] lj Hlj; simplify_eq/=; lia.
    + intros [|[|j]] lj Hj Hlj; simplify_eq/=; lia.
  - reflexivity.
Qed.

(** * Two runs under two clocks *)

Lemma strictly_increasing_lt (k : nat -> Z) (m n : nat) :
  strictly_increasing k -> (k m < k n <-> (m < n)%nat).
Proof.
  intros Hk. split; [|apply Hk].
  intros Hlt. destruct (decide (m < n)%nat) as [|Hge]; [done|].
  destruct (decide (m = n)) as [->|Hne]; [lia|].
  pose proof (Hk n m ltac:(lia)). lia.
Qed.

Section TwoClocks.

Variable cfg : config.
Variables k1 k2 : nat -> Z.
Hypothesis Hk1 : strictly_increasing k1.
Hypothesis Hk2 : strictly_increasing k2.

Lemma line_rel_mono (t t' : nat) (l1 l2 : line) :
  (t <= t')%nat -> line_rel k1 k2 t l1 l2 -> line_rel k1 k2 t' l1 l2.
Proof.
  intros Ht (Hi & Ho & Htag & Hstamp). split_and!; try done.
  intros Hnz. destruct (Hstamp Hnz) as (n & Hn & H1 & H2).
  exists n. split_and!; [lia|done|done].
Qed.

Lemma cache_rel_mono (t t' : nat) (c1 c2 : cache) :
  (t <= t')%nat -> cache_rel k1 k2 t c1 c2 -> cache_rel k1 k2 t' c1 c2.
Proof.
  intros Ht Hc. unfold cache_rel.
  eapply Forall2_impl; [exact Hc|]. intros set1 set2 Hsets.
  eapply Forall2_impl; [exact Hsets|]. intros l1 l2. by apply line_rel_mono.
Qed.

Lemma line_from_address_rel (a : Z) (t : nat) :
  line_rel k1 k2 (S t)
    (line_from_address cfg a (k1 t)) (line_from_address cfg a (k2 t)).
Proof.
  split_and!; try done. intros _. exists t. split_and!; [lia|done|done].
Qed.

Lemma in_cache_loop_rel (t : nat) (set1 set2 : blocks) (l1 l2 : line) :
  Forall2 (line_rel k1 k2 t) set1 set2 ->
  tag l1 = tag l2 ->
  forall n i, in_cache_loop set1 l1 n i = in_cache_loop set2 l2 n i.
Proof.
  intros Hsets Htag. induction n as [|n IH]; intros i; [done|].
  cbn [in_cache_loop].
  destruct (proj1 (Forall2_lookup _ _ _) Hsets i) as [ln1 ln2 Hln|]; [|done].
  simpl. destruct Hln as (_ & _ & Ht & _). rewrite Ht, Htag.
  destruct (tag ln2 =? tag l2); [done|apply IH].
Qed.

Lemma in_cache_rel (t : nat) (c1 c2 : cache) (l1 l2 : line) :
  cache_rel k1 k2 t c1 c2 ->
  index l1 = index l2 -> tag l1 = tag l2 ->
  in_cache cfg c1 l1 = in_cache cfg c2 l2.
Proof.
  intros Hc Hi Htag. unfold in_cache. rewrite Hi.
  destruct (proj1 (Forall2_lookup _ _ _) Hc (Z.to_nat (index l2)))
    as [set1 set2 Hsets|]; [|done].
  simpl. by eapply in_cache_loop_rel.
Qed.

(** The two scans go the same way: stamps taken at the same calls compare
    the same under both clocks. *)
Lemma add_to_cache_loop_rel (t : nat) (set1 set2 : blocks) (l1 l2 : line) :
  Forall2 (line_rel k1 k2 t) set1 set2 ->
  line_rel k1 k2 t l1 l2 ->
  forall n i oldest m,
    option_Forall2 (Forall2 (line_rel k1 k2 t))
      (add_to_cache_loop set1 l1 n i oldest (k1 m))
      (add_to_cache_loop set2 l2 n i oldest (k2 m)).
Proof.
  intros Hsets Hl. induction n as [|n IH]; intros i oldest m.
  - cbn [add_to_cache_loop]. destruct oldest as [o|]; simpl; [|constructor].
    destruct (proj1 (Forall2_lookup _ _ _) Hsets o) as [lo1 lo2 _|];
      simpl; constructor.
    by apply Forall2_insert.
  - cbn [add_to_cache_loop].
    destruct (proj1 (Forall2_lookup _ _ _) Hsets i) as [ln1 ln2 Hln|];
      simpl; [|constructor].
    destruct Hln as (_ & _ & Htag & Hstamp). rewrite <- Htag.
    destruct (Z.eqb_spec (tag ln1) 0) as [Hz|Hnz].
    + constructor. by apply Forall2_insert.
    + destruct (Hstamp Hnz) as (n0 & _ & -> & ->).
      destruct (Z.ltb_spec (k1 n0) (k1 m)) as [Hlt|Hge];
        destruct (Z.ltb_spec (k2 n0) (k2 m)) as [Hlt'|Hge']; try apply IH.
      * apply strictly_increasing_lt in Hlt; [|done]. apply Hk2 in Hlt. lia.
      * apply strictly_increasing_lt in Hlt'; [|done]. apply Hk1 in Hlt'. lia.
Qed.

Lemma add_to_cache_rel (t : nat) (c1 c2 : cache) (l1 l2 : line) (m : nat) :
  cache_rel k1 k2 t c1 c2 ->
  line_rel k1 k2 t l1 l2 ->
  option_Forall2 (cache_rel k1 k2 t)
    (add_to_cache cfg c1 l1 (k1 m)) (add_to_cache cfg c2 l2 (k2 m)).
Proof.
  intros Hc Hl. unfold add_to_cache.
  destruct Hl as (Hi & Hl'). rewrite Hi.
  destruct (proj1 (Forall2_lookup _ _ _) Hc (Z.to_nat (index l2)))
    as [set1 set2 Hsets|]; simpl; [|constructor].
  destruct (add_to_cache_loop_rel t set1 set2 l1 l2 Hsets
              (conj Hi Hl') (ASSOCIATIVITY cfg) 0%nat None m)
    as [set1' set2' Hsets'|]; simpl; constructor.
  by apply Forall2_insert.
Qed.

Lemma prefetch_rel (addr : Z) (c1 c2 : cache) (m : Z) (t : nat) :
  cache_rel k1 k2 t c1 c2 ->
  option_Forall2
    (fun r1 r2 => cache_rel k1 k2 (r1.2) (r1.1.1) (r2.1.1) /\
                  r1.1.2 = r2.1.2 /\ r1.2 = r2.2)
    (prefetch cfg k1 addr c1 m t) (prefetch cfg k2 addr c2 m t).
Proof.
  intros Hc. unfold prefetch.
  destruct (PREFETCHING cfg); [|by constructor].
  pose proof (line_from_address_rel (ulong (addr + BLOCKS_SIZE cfg)) t)
    as Hl.
  assert (cache_rel k1 k2 (S t) c1 c2) as Hc' by (eapply cache_rel_mono; [|done]; lia).
  rewrite (in_cache_rel (S t) c1 c2 _ _ Hc' (proj1 Hl) (proj1 (proj2 (proj2 Hl)))).
  destruct (in_cache cfg c2 _) as [[|]|]; simpl; [|  |constructor].
  - by constructor.
  - destruct (add_to_cache_rel (S t) c1 c2 _ _ (S t) Hc' Hl)
      as [c1' c2' Hc''|]; simpl; constructor.
    split_and!; try done. simpl. eapply cache_rel_mono; [|done]. lia.
Qed.

Lemma step_rel (a : action) (s1 s2 : sim) :
  sim_rel k1 k2 s1 s2 ->
  option_Forall2 (sim_rel k1 k2) (step cfg k1 a s1) (step cfg k2 a s2).
Proof.
  intros (Hc & Hh & Hm & Ht). unfold step. rewrite <- Ht, <- Hh, <- Hm.
  set (t := ticks s1) in *.
  pose proof (line_from_address_rel (address a) t) as Hl.
  assert (cache_rel k1 k2 (S t) (c s1) (c s2)) as Hc'
    by (eapply cache_rel_mono; [|done]; lia).
  rewrite (in_cache_rel (S t) _ _ _ _ Hc' (proj1 Hl) (proj1 (proj2 (proj2 Hl)))).
  destruct (in_cache cfg (c s2) _) as [[|]|]; simpl; [| |constructor].
  - constructor. by split_and!.
  - destruct (add_to_cache_rel (S t) _ _ _ _ (S t) Hc' Hl)
      as [c1' c2' Hc''|]; simpl; [|constructor].
    assert (cache_rel k1 k2 (S (S t)) c1' c2') as Hc3
      by (eapply cache_rel_mono; [|done]; lia).
    destruct (prefetch_rel (address a) c1' c2' (misses s1) (S (S t)) Hc3)
      as [[[d1 m1] t1] [[d2 m2] t2] (Hd & Hm' & Ht')|]; simpl in *;
      constructor.
    subst. by split_and!.
Qed.

Lemma replay_rel (actions : list action) (s1 s2 : sim) :
  sim_rel k1 k2 s1 s2 ->
  option_Forall2 (sim_rel k1 k2)
    (replay cfg k1 actions s1) (replay cfg k2 actions s2).
Proof.
  revert s1 s2. induction actions as [|a rest IH]; intros s1 s2 Hs.
  - constructor.
  - cbn [replay]. destruct (decide (rw a = NUL)); [by constructor|].
    destruct (step_rel a s1 s2 Hs) as [s1' s2' Hs'|]; simpl; [|constructor].
    by apply IH.
Qed.

Lemma init_rel : sim_rel k1 k2 (init cfg) (init cfg).
Proof.
  split_and!; try done. simpl. unfold cache_rel.
  apply Forall_Forall2_diag, Forall_replicate.
  apply Forall_Forall2_diag, Forall_replicate.
  split_and!; try done.
Qed.

End TwoClocks.

(** C6, as the program has it. The pair of counters is a function of the
    configuration, of the array of actions and of the readings of [time]:
    recency is the wall-clock time of the insertion. Two runs on the same
    configuration and the same actions end with the same counters (or are
    both undefined) whenever, in each of them, every reading of the clock is
    larger than the one before, whatever the readings are. *)
Theorem execute_mem_clock_independent (cfg : config) (k1 k2 : nat -> Z)
    (actions : list action) :
  strictly_increasing k1 -> strictly_increasing k2 ->
  execute_mem cfg k1 actions = execute_mem cfg k2 actions.
Proof.
  intros Hk1 Hk2. unfold execute_mem.
  destruct (replay_rel cfg k1 k2 Hk1 Hk2 actions (init cfg) (init cfg)
              (init_rel cfg k1 k2)) as [s1 s2 Hs|]; [|done].
  simpl. destruct Hs as (_ & -> & -> & _). done.
Qed.

Lemma execute_mem_clock_independent_witness :
  execute_mem two_way_config ticking_clock thrash_trace
  = execute_mem two_way_config (fun n => 10 * Z.of_nat n - 3) thrash_trace.
Proof.
  apply (execute_mem_clock_independent two_way_config ticking_clock
           (fun n => 10 * Z.of_nat n - 3) thrash_trace).
  - intros m n Hmn. unfold ticking_clock. lia.
  - intros m n Hmn. lia.
Defined.

(** C6, as stated, fails. On [two_way_config], the four addresses of
    [thrash_trace] select set 0 and the fifth access repeats the third.
    Under a clock that ticks at every call the fourth access replaces the
    line of the second and the fifth hits. Under a clock of the resolution
    of a second, which never goes back either, the second and third lines
    are stamped alike, the fourth access replaces the line of the third, and
    the fifth misses. *)
Lemma execute_mem_depends_on_clock :
  non_decreasing ticking_clock /\ non_decreasing coarse_clock /\
  execute_mem two_way_config ticking_clock thrash_trace = Some (1, 4) /\
  execute_mem two_way_config coarse_clock thrash_trace = Some (0, 5) /\
  execute_mem two_way_config ticking_clock thrash_trace
  <> execute_mem two_way_config coarse_clock thrash_trace.
Proof.
  split_and!.
  - intros m n Hmn. unfold ticking_clock. lia.
  - intros m n Hmn. unfold coarse_clock.
    destruct (Nat.ltb_spec m 2), (Nat.ltb_spec m 6),
      (Nat.ltb_spec n 2), (Nat.ltb_spec n 6); lia.
  - reflexivity.
  - reflexivity.
  - discriminate.
Qed.

(** * Progress and the sum of the counters *)

Section Progress.

Variable cfg : config.
Variable clk : nat -> Z.

Lemma add_to_cache_loop_length (set set' : blocks) (l : line) :
  forall n i oldest oldest_time,
    add_to_cache_loop set l n i oldest oldest_time = Some set' ->
    length set' = length set.
Proof.
  induction n as [|n IH]; intros i oldest ot; cbn [add_to_cache_loop].
  - destruct oldest as [o|]; simpl; [|done].
    destruct (set !! o); simpl; [|done].
    intros [= <-]. apply length_insert.
  - destruct (set !! i) as [ln|]; simpl; [|done].
    destruct (tag ln =? 0).
    + intros [= <-]. apply length_insert.
    + destruct (last_access ln <? ot); apply IH.
Qed.

Lemma add_to_cache_wf (c c' : cache) (l : line) (now : Z) :
  wf_cache cfg c -> add_to_cache cfg c l now = Some c' -> wf_cache cfg c'.
Proof.
  intros [Hlen Hrows]. unfold add_to_cache.
  destruct (c !! Z.to_nat (index l)) as [set|] eqn:Hset; simpl; [|done].
  destruct (add_to_cache_loop set l _ _ _ _) as [set'|] eqn:Hloop;
    simpl; [|done].
  intros [= <-]. split.
  - by rewrite length_insert.
  - apply Forall_insert; [done|].
    rewrite (add_to_cache_loop_length _ _ _ _ _ _ _ Hloop).
    apply (Forall_lookup_1 _ c _ set Hrows Hset).
Qed.

(** A set of [ASSOCIATIVITY] lines takes the new line, provided every line
    in use is older than the reading the scan starts from. *)
Lemma add_to_cache_loop_total (set : blocks) (l : line) (now : Z) :
  (0 < length set)%nat ->
  Forall (fun ln => tag ln <> 0 -> last_access ln < now) set ->
  exists p, add_to_cache_loop set l (length set) 0 None now
            = Some (<[p := l]> set).
Proof.
  intros Hpos Hstamped.
  destruct (Forall_Exists_dec (fun ln => tag ln <> 0) (fun ln => tag ln = 0)
              (fun ln => match decide (tag ln = 0) with
                         | left e => right e
                         | right n => left n
                         end) set) as [Hfull|Hempty].
  - destruct (add_to_cache_loop_evicts set l now Hfull) as (v & _ & Hv).
    + destruct set as [|ln set]; [simpl in Hpos; lia|].
      apply Exists_cons_hd.
      apply Forall_cons in Hstamped as [Hln _].
      apply Forall_cons in Hfull as [Hnz _]. by apply Hln.
    + by exists v.
  - destruct (add_to_cache_loop_first_empty set l now Hempty)
      as (p & _ & Hp).
    by exists p.
Qed.

Hypothesis Hwf : wf_config cfg.
Hypothesis Hclk : strictly_increasing clk.

Lemma in_cache_total (c : cache) (l : line) :
  wf_cache cfg c ->
  (Z.to_nat (index l) < NB_BLOCKS cfg)%nat ->
  exists b, in_cache cfg c l = Some b.
Proof.
  intros [Hlen Hrows] Hi.
  destruct (lookup_lt_is_Some_2 c (Z.to_nat (index l)) ltac:(lia))
    as [set Hset].
  destruct (in_cache_spec cfg c l set Hset) as (b & Hb & _).
  - apply (Forall_lookup_1 _ c _ set Hrows Hset).
  - by exists b.
Qed.

Lemma add_to_cache_total (c : cache) (l : line) (t m : nat) :
  wf_cache cfg c ->
  cache_rel clk clk t c c ->
  (t <= m)%nat ->
  (Z.to_nat (index l) < NB_BLOCKS cfg)%nat ->
  exists c', add_to_cache cfg c l (clk m) = Some c'.
Proof.
  intros [Hlen Hrows] Hstamps Htm Hi.
  destruct (lookup_lt_is_Some_2 c (Z.to_nat (index l)) ltac:(lia))
    as [set Hset].
  pose proof (Forall_lookup_1 _ c _ set Hrows Hset) as Hset_len.
  simpl in Hset_len.
  destruct (add_to_cache_loop_total set l (clk m)) as [p Hp].
  - rewrite Hset_len. by destruct Hwf.
  - pose proof (proj1 (Forall2_lookup _ _ _) Hstamps (Z.to_nat (index l)))
      as Hrel.
    rewrite Hset in Hrel. inversion Hrel as [? ? Hlines|]; subst.
    apply Forall_lookup. intros j ln Hln Hnz.
    pose proof (proj1 (Forall2_lookup _ _ _) Hlines j) as Hrel_j.
    rewrite Hln in Hrel_j. inversion Hrel_j as [? ? Hline|]; subst.
    destruct Hline as (_ & _ & _ & Hstamp).
    destruct (Hstamp Hnz) as (n & Hn & -> & _).
    apply Hclk. lia.
  - unfold add_to_cache. rewrite Hset. simpl.
    rewrite <- Hset_len, Hp. simpl. by eexists.
Qed.

(** Under a clock whose readings grow, an iteration on a store in the
    invariant is defined and keeps the invariant. *)
Lemma step_total (a : action) (s : sim) :
  sim_inv cfg clk s ->
  exists s', step cfg clk a s = Some s' /\ sim_inv cfg clk s'.
Proof.
  intros [Hshape Hstamps].
  assert (forall s', step cfg clk a s = Some s' ->
                     cache_rel clk clk (ticks s') (c s') (c s')) as Hkeep.
  { intros s' Hs'.
    pose proof (step_rel cfg clk clk Hclk Hclk a s s
                  (conj Hstamps (conj eq_refl (conj eq_refl eq_refl))))
      as Hrel.
    rewrite Hs' in Hrel. inversion Hrel as [? ? Hsim|]; subst.
    by destruct Hsim. }
  revert Hkeep. unfold step.
  set (l := line_from_address cfg (address a) (clk (ticks s))).
  destruct (in_cache_total (c s) l Hshape) as [[|] Hb];
    [by apply index_in_range| |]; rewrite Hb; simpl.
  - intros Hkeep. eexists. split; [done|]. split; [done|]. by apply Hkeep.
  - destruct (add_to_cache_total (c s) l (ticks s) (S (ticks s)) Hshape
                Hstamps ltac:(lia)) as [c1 Hc1];
      [by apply index_in_range|].
    rewrite Hc1. simpl.
    pose proof (add_to_cache_wf _ _ _ _ Hshape Hc1) as Hshape1.
    assert (cache_rel clk clk (S (S (ticks s))) c1 c1) as Hstamps1.
    { assert (cache_rel clk clk (S (ticks s)) (c s) (c s)) as Hstamps'
        by (eapply cache_rel_mono; [|done]; lia).
      pose proof (add_to_cache_rel cfg clk clk Hclk Hclk (S (ticks s))
                    (c s) (c s) l l (S (ticks s)) Hstamps'
                    (line_from_address_rel cfg clk clk _ _)) as Hrel.
      rewrite Hc1 in Hrel. inversion Hrel; subst.
      eapply cache_rel_mono; [|done]. lia. }
    unfold prefetch. destruct (PREFETCHING cfg).
    + set (l2 := line_from_address cfg _ _).
      destruct (in_cache_total c1 l2 Hshape1) as [[|] Hb2];
        [by apply index_in_range| |]; rewrite Hb2; simpl.
      * intros Hkeep. eexists. split; [done|]. split; [done|]. by apply Hkeep.
      * destruct (add_to_cache_total c1 l2 (S (S (ticks s)))
                    (S (S (S (ticks s)))) Hshape1 Hstamps1 ltac:(lia))
          as [c2 Hc2]; [by apply index_in_range|].
        rewrite Hc2. simpl. intros Hkeep. eexists. split; [done|].
        split; [|by apply Hkeep]. simpl.
        by apply (add_to_cache_wf _ _ _ _ Hshape1 Hc2).
    + simpl. intros Hkeep. eexists. split; [done|].
      split; [done|by apply Hkeep].
Qed.

Lemma replay_total (records rest : list action) (d : action) :
  Forall (fun a => rw a <> NUL) records -> rw d = NUL ->
  forall s, sim_inv cfg clk s ->
    exists s', replay cfg clk (records ++ d :: rest) s = Some s'.
Proof.
  intros Hrecords Hd.
  induction Hrecords as [|a records Ha _ IH]; intros s Hs; simpl.
  - rewrite decide_True by done. by eexists.
  - rewrite decide_False by done.
    destruct (step_total a s Hs) as (s' & Hs' & Hinv).
    rewrite Hs'. simpl. by apply IH.
Qed.

Lemma init_inv : sim_inv cfg clk (init cfg).
Proof.
  split.
  - apply calloc_cache_wf.
  - apply (init_rel cfg clk clk).
Qed.

End Progress.

Section Counting.

Variable cfg : config.
Variable clk : nat -> Z.
Hypothesis Hprefetch : PREFETCHING cfg = false.

Lemma replay_counts (records rest : list action) (d : action) :
  Forall (fun a => rw a <> NUL) records -> rw d = NUL ->
  forall s s',
    0 <= hits s -> 0 <= misses s ->
    hits s + misses s + Z.of_nat (length records) < 2 ^ 32 ->
    replay cfg clk (records ++ d :: rest) s = Some s' ->
    hits s' + misses s' = hits s + misses s + Z.of_nat (length records).
Proof.
  intros Hrecords Hd.
  induction Hrecords as [|a records Ha _ IH]; intros s s' Hh Hm Hsum; simpl.
  - rewrite decide_True by done. intros [= <-]. lia.
  - rewrite decide_False by done.
    destruct (step cfg clk a s) as [s1|] eqn:Hstep; simpl; [|done].
    intros Hreplay.
    rewrite length_cons, Nat2Z.inj_succ in Hsum.
    destruct (step_counts_no_prefetch cfg clk a s s1 Hprefetch Hstep)
      as [[Hh1 Hm1]|[Hh1 Hm1]];
      unfold uint in *; rewrite Z.mod_small in * by lia;
      rewrite (IH s1 s') by (done || lia); lia.
Qed.

End Counting.

(** C10. Without prefetching, every iteration of the replay loop adds one
    to exactly one of the two counters (in their 32 bits) and leaves the
    other alone; so, for an array of fewer than [2^32] records before the
    delimiter, a run that ends prints counters whose sum is the number of
    records. And the run does end, with a result, for a well-formed
    configuration and a clock whose readings grow. *)
Theorem hits_plus_misses_is_length (cfg : config) (clk : nat -> Z)
    (records rest : list action) (d : action) :
  PREFETCHING cfg = false ->
  Forall (fun a => rw a <> NUL) records -> rw d = NUL ->
  Z.of_nat (length records) < 2 ^ 32 ->
  (forall a s s', step cfg clk a s = Some s' ->
     (hits s' = uint (hits s + 1) /\ misses s' = misses s) \/
     (hits s' = hits s /\ misses s' = uint (misses s + 1))) /\
  (forall h m, execute_mem cfg clk (records ++ d :: rest) = Some (h, m) ->
     h + m = Z.of_nat (length records)) /\
  (wf_config cfg -> strictly_increasing clk ->
   exists h m, execute_mem cfg clk (records ++ d :: rest) = Some (h, m)).
Proof.
  intros Hp Hrecords Hd Hlen. split_and!.
  - intros a s s'. by apply step_counts_no_prefetch.
  - intros h m. unfold execute_mem.
    destruct (replay cfg clk _ (init cfg)) as [s'|] eqn:Hreplay;
      simpl; [|done].
    intros [= <- <-].
    rewrite (replay_counts cfg clk Hp records rest d Hrecords Hd
               (init cfg) s'); simpl; (done || lia).
  - intros Hwf Hclk. unfold execute_mem.
    destruct (replay_total cfg clk Hwf Hclk records rest d Hrecords Hd
                (init cfg) (init_inv cfg clk)) as [s' Hs'].
    rewrite Hs'. simpl. by eexists _, _.
Qed.

Lemma hits_plus_misses_is_length_witness :
  (forall a s s', step example_config ticking_clock a s = Some s' ->
     (hits s' = uint (hits s + 1) /\ misses s' = misses s) \/
     (hits s' = hits s /\ misses s' = uint (misses s + 1))) /\
  (forall h m,
     execute_mem example_config ticking_clock
       ([read 256; read 256] ++ delimiter :: []) = Some (h, m) ->
     h + m = Z.of_nat (length [read 256; read 256])) /\
  (wf_config example_config -> strictly_increasing ticking_clock ->
   exists h m,
     execute_mem example_config ticking_clock
       ([read 256; read 256] ++ delimiter :: []) = Some (h, m)).
Proof.
  apply (hits_plus_misses_is_length example_config ticking_clock
           [read 256; read 256] [] delimiter).
  - reflexivity.
  - repeat constructor; discriminate.
  - reflexivity.
  - reflexivity.
Defined.

(** * More about insertion and lookup *)

Section InsertLookup.

Variable cfg : config.

(** Whatever the loop of [add_to_cache] returns is the set with the new
    line at one position, a position that the scan went through. *)
Lemma add_to_cache_loop_position (set set' : blocks) (l : line) :
  forall n i oldest oldest_time,
    match oldest with Some o => (o < i)%nat | None => True end ->
    add_to_cache_loop set l n i oldest oldest_time = Some set' ->
    exists p, (p < i + n)%nat /\ (p < length set)%nat /\
              set' = <[p := l]> set.
Proof.
  induction n as [|n IH]; intros i oldest ot Hold; cbn [add_to_cache_loop].
  - destruct oldest as [o|]; simpl; [|done].
    destruct (set !! o) as [lo|] eqn:Hlo; simpl; [|done].
    intros [= <-]. exists o. split_and!; [lia| |done].
    by apply lookup_lt_Some in Hlo.
  - destruct (set !! i) as [ln|] eqn:Hln; simpl; [|done].
    destruct (tag ln =? 0).
    + intros [= <-]. exists i. split_and!; [lia| |done].
      by apply lookup_lt_Some in Hln.
    + destruct (last_access ln <? ot); intros Hloop;
        apply IH in Hloop as (p & Hp & Hlen & ->);
        try (exists p; split_and!; [lia|done|done]).
      * simpl. lia.
      * destruct oldest; [lia|done].
Qed.

(** A scan of [n] positions from [i] finds the tag of a line stored at one
    of these positions. *)
Lemma in_cache_loop_finds (set : blocks) (l : line) (p : nat) :
  (p < length set)%nat ->
  forall n i, (i <= p < i + n)%nat ->
    in_cache_loop (<[p := l]> set) l n i = Some true.
Proof.
  intros Hp. induction n as [|n IH]; intros i Hi; [lia|].
  cbn [in_cache_loop]. destruct (decide (i = p)) as [->|Hne].
  - rewrite list_lookup_insert_eq by done. simpl. by rewrite Z.eqb_refl.
  - rewrite list_lookup_insert_ne by done.
    destruct (lookup_lt_is_Some_2 set i ltac:(lia)) as [ln ->]. simpl.
    destruct (tag ln =? tag l); [done|]. apply IH. lia.
Qed.

Lemma add_to_cache_inv (c c' : cache) (l : line) (now : Z) :
  add_to_cache cfg c l now = Some c' ->
  exists set p,
    c !! Z.to_nat (index l) = Some set /\
    (p < ASSOCIATIVITY cfg)%nat /\ (p < length set)%nat /\
    c' = <[Z.to_nat (index l) := <[p := l]> set]> c.
Proof.
  unfold add_to_cache.
  destruct (c !! Z.to_nat (index l)) as [set|] eqn:Hset; simpl; [|done].
  destruct (add_to_cache_loop set l _ _ _ _) as [set'|] eqn:Hloop;
    simpl; [|done].
  intros [= <-].
  apply add_to_cache_loop_position in Hloop as (p & Hp & Hlen & ->); [|done].
  exists set, p. split_and!; [done|lia|done|done].
Qed.

End InsertLookup.

(** X1. An insertion that returns has written the new line over one line of
    the set that the index of the new line selects, at a position below
    [ASSOCIATIVITY]; every other line of that set and every other set of the
    store are as before, and the store has as many sets as before. *)
Theorem add_to_cache_frame (cfg : config) (c c' : cache) (l : line)
    (now : Z) :
  add_to_cache cfg c l now = Some c' ->
  length c' = length c /\
  (forall i, i <> Z.to_nat (index l) -> c' !! i = c !! i) /\
  exists set p,
    c !! Z.to_nat (index l) = Some set /\
    (p < ASSOCIATIVITY cfg)%nat /\
    c' !! Z.to_nat (index l) = Some (<[p := l]> set) /\
    <[p := l]> set !! p = Some l /\
    (forall j, j <> p -> <[p := l]> set !! j = set !! j).
Proof.
  intros Hadd.
  destruct (add_to_cache_inv cfg c c' l now Hadd)
    as (set & p & Hset & Hp & Hlen & ->).
  split_and!.
  - apply length_insert.
  - intros i Hi. by apply list_lookup_insert_ne.
  - exists set, p. split_and!; [done|done| | |].
    + apply list_lookup_insert_eq. by apply lookup_lt_Some in Hset.
    + by apply list_lookup_insert_eq.
    + intros j Hj. by apply list_lookup_insert_ne.
Qed.

Lemma add_to_cache_frame_witness :
  let c := [full_set_same_time; replicate 2 zero_line] in
  let c' := [<[0%nat := new_line]> full_set_same_time; replicate 2 zero_line] in
  length c' = length c /\
  (forall i, i <> Z.to_nat (index new_line) -> c' !! i = c !! i) /\
  exists set p,
    c !! Z.to_nat (index new_line) = Some set /\
    (p < ASSOCIATIVITY two_way_config)%nat /\
    c' !! Z.to_nat (index new_line) = Some (<[p := new_line]> set) /\
    <[p := new_line]> set !! p = Some new_line /\
    (forall j, j <> p -> <[p := new_line]> set !! j = set !! j).
Proof.
  apply (add_to_cache_frame two_way_config
           [full_set_same_time; replicate 2 zero_line]
           [<[0%nat := new_line]> full_set_same_time; replicate 2 zero_line]
           new_line 6).
  reflexivity.
Defined.

Lemma add_to_cache_then_in_cache (cfg : config) (c c' : cache) (l : line)
    (now : Z) :
  add_to_cache cfg c l now = Some c' ->
  in_cache cfg c' l = Some true.
Proof.
  intros Hadd.
  destruct (add_to_cache_inv cfg c c' l now Hadd)
    as (set & p & Hset & Hp & Hlen & ->).
  unfold in_cache.
  rewrite list_lookup_insert_eq by (by apply lookup_lt_Some in Hset).
  simpl. apply in_cache_loop_finds; [done|lia].
Qed.

(** A lookup reads the index and the tag of the line it is given, nothing
    else. *)
Lemma in_cache_ext (cfg : config) (c : cache) (l l' : line) :
  index l = index l' -> tag l = tag l' ->
  in_cache cfg c l = in_cache cfg c l'.
Proof.
  intros Hi Ht. unfold in_cache. rewrite Hi.
  destruct (c !! Z.to_nat (index l')) as [set|]; simpl; [|done].
  generalize 0%nat.
  induction (ASSOCIATIVITY cfg) as [|n IH]; intros i; [done|].
  cbn [in_cache_loop]. destruct (set !! i) as [ln|]; simpl; [|done].
  rewrite Ht. destruct (tag ln =? tag l'); [done|apply IH].
Qed.

(** X2. Insert, then look up: in the store that an insertion of a line
    returns, the lookup of that line, and of any line with its index and
    tag, answers 1. *)
Theorem in_cache_after_add_to_cache (cfg : config) (c c' : cache)
    (l l' : line) (now : Z) :
  add_to_cache cfg c l now = Some c' ->
  index l' = index l -> tag l' = tag l ->
  in_cache cfg c' l' = Some true.
Proof.
  intros Hadd Hi Ht. rewrite (in_cache_ext cfg c' l' l Hi Ht).
  by eapply add_to_cache_then_in_cache.
Qed.

Lemma in_cache_after_add_to_cache_witness :
  in_cache two_way_config
    [<[0%nat := new_line]> full_set_same_time; replicate 2 zero_line]
    new_line = Some true.
Proof.
  apply (in_cache_after_add_to_cache two_way_config
           [full_set_same_time; replicate 2 zero_line]
           [<[0%nat := new_line]> full_set_same_time; replicate 2 zero_line]
           new_line new_line 6); reflexivity.
Defined.

(** In a set of [ASSOCIATIVITY] lines, a lookup answers 1 exactly when a
    line holds the tag, and 0 exactly when none does. *)
Lemma in_cache_true_iff (cfg : config) (c : cache) (l : line) (set : blocks) :
  c !! Z.to_nat (index l) = Some set ->
  length set = ASSOCIATIVITY cfg ->
  in_cache cfg c l = Some true <->
  exists j ln, set !! j = Some ln /\ tag ln = tag l.
Proof.
  intros Hset Hlen.
  destruct (in_cache_spec cfg c l set Hset Hlen) as (b & Hb & Hiff).
  rewrite Hb, <- Hiff. split; [by intros [= <-]|by intros ->].
Qed.

Lemma in_cache_false_iff (cfg : config) (c : cache) (l : line) (set : blocks) :
  c !! Z.to_nat (index l) = Some set ->
  length set = ASSOCIATIVITY cfg ->
  in_cache cfg c l = Some false <->
  forall j ln, set !! j = Some ln -> tag ln <> tag l.
Proof.
  intros Hset Hlen.
  destruct (in_cache_spec cfg c l set Hset Hlen) as (b & Hb & Hiff).
  rewrite Hb. split.
  - intros [= ->] j ln Hln Ht.
    assert (false = true) by (apply Hiff; by exists j, ln). done.
  - intros Hnone. destruct b; [|done].
    destruct (proj1 Hiff eq_refl) as (j & ln & Hln & Ht).
    by destruct (Hnone j ln Hln).
Qed.

(** X3. While the selected set has an empty line, an insertion takes the
    first empty line and evicts nothing: in a store of the allocated shape,
    every line whose tag is not 0 and whose lookup answered 1 before the
    insertion still has its lookup answer 1 after it. *)
Theorem add_to_cache_first_empty_keeps (cfg : config) (c : cache)
    (l : line) (now : Z) (set : blocks) :
  wf_cache cfg c ->
  c !! Z.to_nat (index l) = Some set ->
  Exists (fun ln => tag ln = 0) set ->
  exists p c',
    is_first_empty set p /\
    add_to_cache cfg c l now
    = Some c' /\ c' = <[Z.to_nat (index l) := <[p := l]> set]> c /\
    forall l', tag l' <> 0 ->
      in_cache cfg c l' = Some true -> in_cache cfg c' l' = Some true.
Proof.
  intros [Hlen Hrows] Hset Hempty.
  pose proof (Forall_lookup_1 _ c _ set Hrows Hset) as Hset_len.
  simpl in Hset_len.
  destruct (add_to_cache_loop_first_empty set l now Hempty)
    as (p & Hp & Hloop).
  exists p, (<[Z.to_nat (index l) := <[p := l]> set]> c).
  split_and!; [done| |done|].
  - unfold add_to_cache. rewrite Hset. simpl.
    by rewrite <- Hset_len, Hloop.
  - intros l' Hnz Hhit.
    destruct (decide (Z.to_nat (index l') = Z.to_nat (index l))) as [Heq|Hne].
    + assert (c !! Z.to_nat (index l') = Some set) as Hset'
        by (by rewrite Heq).
      apply (in_cache_true_iff cfg c l' set Hset' Hset_len) in Hhit
        as (j & ln & Hln & Ht).
      apply (in_cache_true_iff cfg _ l' (<[p := l]> set)).
      * rewrite Heq. apply list_lookup_insert_eq.
        by apply lookup_lt_Some in Hset.
      * by rewrite length_insert.
      * exists j, ln. split; [|done].
        rewrite list_lookup_insert_ne; [done|].
        intros ->. destruct Hp as (lp & Hlp & Hz & _).
        assert (ln = lp) as -> by congruence. congruence.
    + unfold in_cache in *. by rewrite list_lookup_insert_ne.
Qed.

Lemma add_to_cache_first_empty_keeps_witness :
  exists p c',
    is_first_empty set_with_tag0 p /\
    add_to_cache two_way_config
      [set_with_tag0; replicate 2 zero_line] new_line 9 = Some c' /\
    c' = <[Z.to_nat (index new_line) := <[p := new_line]> set_with_tag0]>
           [set_with_tag0; replicate 2 zero_line] /\
    forall l', tag l' <> 0 ->
      in_cache two_way_config [set_with_tag0; replicate 2 zero_line] l'
      = Some true ->
      in_cache two_way_config c' l' = Some true.
Proof.
  apply (add_to_cache_first_empty_keeps two_way_config
           [set_with_tag0; replicate 2 zero_line] new_line 9 set_with_tag0).
  - split; [reflexivity|]. repeat constructor.
  - reflexivity.
  - apply Exists_cons_hd. reflexivity.
Defined.

(** X4. When the selected set has no empty line and some line of it is
    older than the reading of the clock, the insertion replaces the line
    with the smallest [last_access], the one at the lowest position when
    several share it; a line of the set with another tag than the victim's
    still has its lookup answer 1. *)
Theorem add_to_cache_evicts_victim_only (cfg : config) (c : cache)
    (l : line) (now : Z) (set : blocks) :
  wf_cache cfg c ->
  c !! Z.to_nat (index l) = Some set ->
  Forall (fun ln => tag ln <> 0) set ->
  Exists (fun ln => last_access ln < now) set ->
  exists v lv c',
    is_victim set v /\ set !! v = Some lv /\
    add_to_cache cfg c l now = Some c' /\
    c' = <[Z.to_nat (index l) := <[v := l]> set]> c /\
    forall l', tag l' <> tag lv ->
      in_cache cfg c l' = Some true -> in_cache cfg c' l' = Some true.
Proof.
  intros [Hlen Hrows] Hset Hfull Hold.
  pose proof (Forall_lookup_1 _ c _ set Hrows Hset) as Hset_len.
  simpl in Hset_len.
  destruct (add_to_cache_evicts_older cfg c l now set Hset Hset_len Hfull Hold)
    as (v & Hv & Hadd).
  pose proof Hv as (lv & Hlv & _).
  exists v, lv, (<[Z.to_nat (index l) := <[v := l]> set]> c).
  split_and!; try done.
  intros l' Hne Hhit.
  destruct (decide (Z.to_nat (index l') = Z.to_nat (index l))) as [Heq|Hidx].
  - assert (c !! Z.to_nat (index l') = Some set) as Hset'
      by (by rewrite Heq).
    apply (in_cache_true_iff cfg c l' set Hset' Hset_len) in Hhit
      as (j & ln & Hln & Ht).
    apply (in_cache_true_iff cfg _ l' (<[v := l]> set)).
    + rewrite Heq. apply list_lookup_insert_eq.
      by apply lookup_lt_Some in Hset.
    + by rewrite length_insert.
    + exists j, ln. split; [|done].
      rewrite list_lookup_insert_ne; [done|].
      intros ->. assert (ln = lv) as -> by congruence. congruence.
  - unfold in_cache in *. by rewrite list_lookup_insert_ne.
Qed.

Lemma add_to_cache_evicts_victim_only_witness :
  exists v lv c',
    is_victim full_set_same_time v /\ full_set_same_time !! v = Some lv /\
    add_to_cache two_way_config
      [full_set_same_time; replicate 2 zero_line] new_line 6 = Some c' /\
    c' = <[Z.to_nat (index new_line) := <[v := new_line]> full_set_same_time]>
           [full_set_same_time; replicate 2 zero_line] /\
    forall l', tag l' <> tag lv ->
      in_cache two_way_config
        [full_set_same_time; replicate 2 zero_line] l' = Some true ->
      in_cache two_way_config c' l' = Some true.
Proof.
  apply (add_to_cache_evicts_victim_only two_way_config
           [full_set_same_time; replicate 2 zero_line] new_line 6
           full_set_same_time).
  - split; [reflexivity|]. repeat constructor.
  - reflexivity.
  - repeat constructor; simpl; lia.
  - apply Exists_cons_hd. simpl. lia.
Defined.

(** * What a replay keeps *)

Section Replay.

Variable cfg : config.
Variable clk : nat -> Z.

(** The ways of an iteration that returns. *)
Lemma step_inv (a : action) (s s' : sim) :
  step cfg clk a s = Some s' ->
  let t := ticks s in
  let l := line_from_address cfg (address a) (clk t) in
  let l2 :=
    line_from_address cfg (ulong (address a + BLOCKS_SIZE cfg))
      (clk (S (S t))) in
  (in_cache cfg (c s) l = Some true /\ c s' = c s /\
   hits s' = uint (hits s + 1) /\ misses s' = misses s) \/
  (in_cache cfg (c s) l = Some false /\ hits s' = hits s /\
   exists c1, add_to_cache cfg (c s) l (clk (S t)) = Some c1 /\
     ((PREFETCHING cfg = false /\ c s' = c1 /\
       misses s' = uint (misses s + 1)) \/
      (PREFETCHING cfg = true /\ in_cache cfg c1 l2 = Some true /\
       c s' = c1 /\ misses s' = uint (misses s + 1)) \/
      (PREFETCHING cfg = true /\ in_cache cfg c1 l2 = Some false /\
       exists c2, add_to_cache cfg c1 l2 (clk (S (S (S t)))) = Some c2 /\
                  c s' = c2 /\ misses s' = uint (misses s + 2)))).
Proof.
  intros Hstep t l l2. revert Hstep. unfold step, prefetch. fold t l.
  destruct (in_cache cfg (c s) l) as [[|]|] eqn:Hb; simpl; [| |done].
  - intros [= <-]. left. by split_and!.
  - destruct (add_to_cache cfg (c s) l _) as [c1|] eqn:Hc1; simpl; [|done].
    destruct (PREFETCHING cfg) eqn:Hp.
    + fold l2.
      destruct (in_cache cfg c1 l2) as [[|]|] eqn:Hb2; simpl; [| |done].
      * intros [= <-]. right. split_and!; try done. exists c1.
        split; [done|]. right; left. by split_and!.
      * destruct (add_to_cache cfg c1 l2 _) as [c2|] eqn:Hc2; simpl; [|done].
        intros [= <-]. right. split_and!; try done. exists c1.
        split; [done|]. right; right. split_and!; try done.
        exists c2. split_and!; try done. simpl. apply uint_succ_succ.
    + simpl. intros [= <-]. right. split_and!; try done. exists c1.
      split; [done|]. left. by split_and!.
Qed.

(** A property of the store that every insertion after a lookup that
    answered 0 keeps is kept by an iteration. The inserted line is that of
    the address of the action or, with prefetching, of the address one
    block further. *)
Lemma step_keeps (P : cache -> Prop) (a : action) :
  (forall c0 c1 x t now,
     P c0 ->
     x = address a \/
     (PREFETCHING cfg = true /\ x = ulong (address a + BLOCKS_SIZE cfg)) ->
     in_cache cfg c0 (line_from_address cfg x t) = Some false ->
     add_to_cache cfg c0 (line_from_address cfg x t) now = Some c1 ->
     P c1) ->
  forall s s', P (c s) -> step cfg clk a s = Some s' -> P (c s').
Proof.
  intros Hadd s s' HP Hstep.
  destruct (step_inv a s s' Hstep)
    as [(_ & -> & _)|(Hmiss & _ & c1 & Hc1 & Hrest)]; [done|].
  assert (P c1) as HP1 by (eapply Hadd; [done|by left|done|done]).
  destruct Hrest as [(_ & -> & _)|[(_ & _ & -> & _)|(Hp & Hmiss2 & c2 & Hc2 & -> & _)]];
    try done.
  eapply Hadd; [exact HP1|by right|done|done].
Qed.

(** A replay that returns has met the delimiter. *)
Lemma replay_Some_split (actions : list action) (s s' : sim) :
  replay cfg clk actions s = Some s' ->
  exists records d rest,
    actions = records ++ d :: rest /\
    Forall (fun a => rw a <> NUL) records /\ rw d = NUL.
Proof.
  revert s. induction actions as [|a actions IH]; intros s; simpl; [done|].
  destruct (decide (rw a = NUL)) as [Hd|Hr].
  - intros _. exists [], a, actions. by split_and!.
  - destruct (step cfg clk a s) as [s1|]; simpl; [|done].
    intros Hreplay.
    destruct (IH s1 Hreplay) as (records & d & rest & -> & Hrecords & Hd).
    exists (a :: records), d, rest. split_and!; [done| |done].
    by constructor.
Qed.

(** The same for a replay, over the records before the delimiter. *)
Lemma replay_keeps (P : cache -> Prop) (ok : action -> Prop) :
  (forall a c0 c1 x t now,
     ok a -> P c0 ->
     x = address a \/
     (PREFETCHING cfg = true /\ x = ulong (address a + BLOCKS_SIZE cfg)) ->
     in_cache cfg c0 (line_from_address cfg x t) = Some false ->
     add_to_cache cfg c0 (line_from_address cfg x t) now = Some c1 ->
     P c1) ->
  forall records d rest,
    Forall (fun a => rw a <> NUL) records -> Forall ok records ->
    rw d = NUL ->
    forall s s',
      P (c s) ->
      replay cfg clk (records ++ d :: rest) s = Some s' ->
      P (c s').
Proof.
  intros Hadd records d rest Hrecords Hok Hd.
  induction Hrecords as [|a records Ha _ IH]; intros s s' HP; simpl.
  - rewrite decide_True by done. by intros [= <-].
  - rewrite decide_False by done.
    apply Forall_cons in Hok as [Hoka Hok].
    destruct (step cfg clk a s) as [s1|] eqn:Hstep; simpl; [|done].
    apply (IH Hok). eapply (step_keeps P a); [|exact HP|exact Hstep].
    intros c0 c1 x t now. by apply Hadd.
Qed.

(** An insertion keeps the shape of the store, and, after a lookup that
    answered 0, it keeps the tags of every set distinct. *)
Lemma add_to_cache_distinct (c0 c1 : cache) (l : line) (now : Z) :
  wf_cache cfg c0 -> distinct_tags c0 ->
  in_cache cfg c0 l = Some false ->
  add_to_cache cfg c0 l now = Some c1 ->
  distinct_tags c1.
Proof.
  intros [Hlen Hrows] Hdist Hmiss Hadd.
  destruct (add_to_cache_inv cfg c0 c1 l now Hadd)
    as (set & p & Hset & Hp & Hplen & ->).
  pose proof (Forall_lookup_1 _ c0 _ set Hrows Hset) as Hset_len.
  simpl in Hset_len.
  pose proof (proj1 (in_cache_false_iff cfg c0 l set Hset Hset_len) Hmiss)
    as Hnone.
  pose proof (Forall_lookup_1 _ c0 _ set Hdist Hset) as Hset_dist.
  simpl in Hset_dist.
  apply Forall_insert; [done|].
  intros i j li lj Hi Hj Htag Hnz.
  destruct (decide (i = p)) as [->|Hip]; destruct (decide (j = p)) as [->|Hjp];
    try done.
  - rewrite list_lookup_insert_eq in Hi by done.
    rewrite list_lookup_insert_ne in Hj by done.
    injection Hi as <-. by destruct (Hnone j lj Hj).
  - rewrite list_lookup_insert_ne in Hi by done.
    rewrite list_lookup_insert_eq in Hj by done.
    injection Hj as <-. by destruct (Hnone i li Hi).
  - rewrite list_lookup_insert_ne in Hi, Hj by done.
    by apply (Hset_dist i j li lj).
Qed.

Lemma calloc_cache_distinct : distinct_tags (calloc_cache cfg).
Proof.
  apply Forall_replicate. intros i j li lj Hi _ _ Hnz.
  apply lookup_replicate in Hi as [-> _]. done.
Qed.

(** An insertion of the line of an address of [addrs] keeps the lines in
    use among those computed from [addrs]. *)
Lemma add_to_cache_brought_in (addrs : list Z) (c0 c1 : cache) (x now t : Z) :
  x ∈ addrs ->
  brought_in cfg addrs c0 ->
  add_to_cache cfg c0 (line_from_address cfg x t) now = Some c1 ->
  brought_in cfg addrs c1.
Proof.
  intros Hx Hin Hadd.
  destruct (add_to_cache_inv cfg c0 c1 _ now Hadd)
    as (set & p & Hset & Hp & Hplen & ->).
  set (l := line_from_address cfg x t) in *.
  intros idx set' i ln Hset' Hln Hnz.
  destruct (decide (idx = Z.to_nat (index l))) as [->|Hidx].
  - rewrite list_lookup_insert_eq in Hset'
      by (by apply lookup_lt_Some in Hset).
    injection Hset' as <-.
    destruct (decide (i = p)) as [->|Hip].
    + rewrite list_lookup_insert_eq in Hln by done. injection Hln as <-.
      by exists x, t.
    + rewrite list_lookup_insert_ne in Hln by done.
      by apply (Hin _ set i).
  - rewrite list_lookup_insert_ne in Hset' by done.
    by apply (Hin idx set' i).
Qed.

Lemma calloc_cache_brought_in (addrs : list Z) :
  brought_in cfg addrs (calloc_cache cfg).
Proof.
  intros idx set i ln Hset Hln Hnz.
  apply lookup_replicate in Hset as [-> _].
  apply lookup_replicate in Hln as [-> _]. done.
Qed.

Lemma replay_wf (actions : list action) (s s' : sim) :
  wf_cache cfg (c s) ->
  replay cfg clk actions s = Some s' ->
  wf_cache cfg (c s').
Proof.
  intros Hwf Hreplay.
  destruct (replay_Some_split actions s s' Hreplay)
    as (records & d & rest & -> & Hrecords & Hd).
  eapply (replay_keeps (wf_cache cfg) (fun _ => True));
    [|exact Hrecords| |exact Hd|exact Hwf|exact Hreplay].
  - intros a c0 c1 x t now _ Hwf0 _ _. by apply add_to_cache_wf.
  - by apply Forall_true.
Qed.

Lemma replay_distinct (actions : list action) (s s' : sim) :
  wf_cache cfg (c s) -> distinct_tags (c s) ->
  replay cfg clk actions s = Some s' ->
  distinct_tags (c s').
Proof.
  intros Hwf Hdist Hreplay.
  destruct (replay_Some_split actions s s' Hreplay)
    as (records & d & rest & -> & Hrecords & Hd).
  eapply (replay_keeps (fun c0 => wf_cache cfg c0 /\ distinct_tags c0)
            (fun _ => True));
    [|exact Hrecords| |exact Hd|by split|exact Hreplay].
  - intros a c0 c1 x t now _ [Hwf0 Hdist0] _ Hmiss Hadd. split.
    + by eapply add_to_cache_wf.
    + by eapply add_to_cache_distinct.
  - by apply Forall_true.
Qed.

Lemma replay_brought_in (records rest : list action) (d : action)
    (s s' : sim) :
  Forall (fun a => rw a <> NUL) records -> rw d = NUL ->
  brought_in cfg (touched cfg records) (c s) ->
  replay cfg clk (records ++ d :: rest) s = Some s' ->
  brought_in cfg (touched cfg records) (c s').
Proof.
  intros Hrecords Hd Hin Hreplay.
  eapply (replay_keeps (brought_in cfg (touched cfg records))
            (fun a => a ∈ records));
    [|exact Hrecords| |exact Hd|exact Hin|exact Hreplay].
  - intros a c0 c1 x t now Ha Hin0 Hx _ Hadd.
    eapply add_to_cache_brought_in; [|exact Hin0|exact Hadd].
    unfold touched. apply list_elem_of_In, in_flat_map.
    exists a. split; [by apply list_elem_of_In|].
    destruct Hx as [->|[Hp ->]].
    + destruct (PREFETCHING cfg); simpl; tauto.
    + rewrite Hp. simpl. tauto.
  - by apply Forall_forall.
Qed.

End Replay.

(** X5. A replay keeps the shape of the store: when [execute_mem]'s loop
    returns, the store still has its [NB_BLOCKS] sets of [ASSOCIATIVITY]
    lines. *)
Theorem replay_keeps_shape (cfg : config) (clk : nat -> Z)
    (actions : list action) (s : sim) :
  replay cfg clk actions (init cfg) = Some s ->
  wf_cache cfg (c s).
Proof.
  intros Hreplay.
  apply (replay_wf cfg clk actions (init cfg) s); [|done].
  apply calloc_cache_wf.
Qed.

Lemma replay_keeps_shape_witness :
  wf_cache two_way_config
    [ [ {| index := 0; offset := 0; tag := 3; last_access := 5 |};
        {| index := 0; offset := 0; tag := 4; last_access := 7 |} ];
      replicate 2 zero_line ].
Proof.
  apply (replay_keeps_shape two_way_config ticking_clock thrash_trace
           {| c := [ [ {| index := 0; offset := 0; tag := 3;
                          last_access := 5 |};
                       {| index := 0; offset := 0; tag := 4;
                          last_access := 7 |} ];
                     replicate 2 zero_line ];
              hits := 1; misses := 4; ticks := 9 |}).
  reflexivity.
Defined.

(** X6. In the store of a replay that returns, no set holds a tag other
    than 0 in two of its lines. *)
Theorem replay_keeps_tags_distinct (cfg : config) (clk : nat -> Z)
    (actions : list action) (s : sim) :
  replay cfg clk actions (init cfg) = Some s ->
  distinct_tags (c s).
Proof.
  intros Hreplay.
  apply (replay_distinct cfg clk actions (init cfg) s); [| |done].
  - apply calloc_cache_wf.
  - apply calloc_cache_distinct.
Qed.

Lemma replay_keeps_tags_distinct_witness :
  distinct_tags
    [ [ {| index := 0; offset := 0; tag := 3; last_access := 5 |};
        {| index := 0; offset := 0; tag := 4; last_access := 7 |} ];
      replicate 2 zero_line ].
Proof.
  apply (replay_keeps_tags_distinct two_way_config ticking_clock thrash_trace
           {| c := [ [ {| index := 0; offset := 0; tag := 3;
                          last_access := 5 |};
                       {| index := 0; offset := 0; tag := 4;
                          last_access := 7 |} ];
                     replicate 2 zero_line ];
              hits := 1; misses := 4; ticks := 9 |}).
  reflexivity.
Defined.

(** * Blocks, sets and the addresses behind a hit *)

Section Blocks.

Variable cfg : config.

Lemma tag_of_block (a now : Z) :
  shifts_defined cfg ->
  tag (line_from_address cfg a now)
  = Z.shiftr a (BLOCKS_SIZE_N cfg) / 2 ^ NB_BLOCKS_N cfg.
Proof.
  intros [Hb Hn]. cbn [tag line_from_address].
  rewrite <- Z.shiftr_shiftr by lia. apply Z.shiftr_div_pow2. lia.
Qed.

Lemma index_of_block (a now : Z) :
  shifts_defined cfg ->
  index (line_from_address cfg a now)
  = Z.shiftr a (BLOCKS_SIZE_N cfg) mod 2 ^ NB_BLOCKS_N cfg.
Proof.
  intros Hs. rewrite index_ones by done. apply Z.land_ones.
  destruct Hs as [_ ?]. lia.
Qed.

(** Index and tag together are the number of the block. *)
Lemma same_block (a b t t' : Z) :
  shifts_defined cfg ->
  index (line_from_address cfg a t) = index (line_from_address cfg b t') /\
  tag (line_from_address cfg a t) = tag (line_from_address cfg b t') <->
  Z.shiftr a (BLOCKS_SIZE_N cfg) = Z.shiftr b (BLOCKS_SIZE_N cfg).
Proof.
  intros Hs. rewrite !tag_of_block, !index_of_block by done.
  destruct Hs as [_ Hn].
  assert (0 < 2 ^ NB_BLOCKS_N cfg) as Hpos by (apply Z.pow_pos_nonneg; lia).
  split; [|by intros ->].
  intros [Hmod Hdiv].
  rewrite (Z.div_mod (Z.shiftr a (BLOCKS_SIZE_N cfg)) (2 ^ NB_BLOCKS_N cfg))
    by lia.
  rewrite (Z.div_mod (Z.shiftr b (BLOCKS_SIZE_N cfg)) (2 ^ NB_BLOCKS_N cfg))
    by lia.
  by rewrite Hmod, Hdiv.
Qed.

Lemma index_nonneg (a now : Z) : 0 <= index (line_from_address cfg a now).
Proof.
  cbn [index line_from_address]. apply Z.land_nonneg. right.
  unfold ulong. apply Z.mod_pos_bound. lia.
Qed.

(** The block after [a], modulo [2^64], selects the set after that of
    [a], modulo the number of sets. *)
Lemma next_block_index (a t t' : Z) :
  wf_config cfg ->
  index (line_from_address cfg (ulong (a + BLOCKS_SIZE cfg)) t)
  = (index (line_from_address cfg a t') + 1) mod 2 ^ NB_BLOCKS_N cfg.
Proof.
  intros [Hs Hblock _ _]. rewrite !index_of_block by done.
  destruct Hs as [Hb Hn]. rewrite Hblock, !Z.shiftr_div_pow2 by lia.
  set (ob := BLOCKS_SIZE_N cfg) in *. set (ib := NB_BLOCKS_N cfg) in *.
  assert (0 < 2 ^ ob) as HB by (apply Z.pow_pos_nonneg; lia).
  assert (0 < 2 ^ ib) as HI by (apply Z.pow_pos_nonneg; lia).
  assert (0 < 2 ^ (64 - ob)) as HM by (apply Z.pow_pos_nonneg; lia).
  assert (2 ^ 64 = 2 ^ ob * 2 ^ (64 - ob)) as H64
    by (rewrite <- Z.pow_add_r by lia; f_equal; lia).
  unfold ulong. rewrite H64, Z.rem_mul_r by lia.
  rewrite (Z.mul_comm (2 ^ ob)), Z.div_add by lia.
  rewrite (Z.div_small ((a + 2 ^ ob) mod 2 ^ ob)), Z.add_0_l
    by (apply Z.mod_pos_bound; lia).
  rewrite Z.mod_mod_divide.
  - replace (a + 2 ^ ob) with (a + 1 * 2 ^ ob) by lia.
    rewrite Z.div_add by lia. by rewrite Zplus_mod_idemp_l.
  - exists (2 ^ (64 - ob - ib)). rewrite <- Z.pow_add_r by lia.
    f_equal. lia.
Qed.

Lemma next_block_other_set (a t t' : Z) :
  wf_config cfg -> 1 <= NB_BLOCKS_N cfg ->
  Z.to_nat (index (line_from_address cfg (ulong (a + BLOCKS_SIZE cfg)) t))
  <> Z.to_nat (index (line_from_address cfg a t')).
Proof.
  intros Hwf Hn Heq.
  pose proof (index_nonneg (ulong (a + BLOCKS_SIZE cfg)) t).
  pose proof (index_bounds cfg a t' (wf_shifts _ Hwf)) as Hi.
  assert (index (line_from_address cfg (ulong (a + BLOCKS_SIZE cfg)) t)
          = index (line_from_address cfg a t')) as Heq' by lia.
  rewrite (next_block_index a t t' Hwf) in Heq'.
  assert (2 <= 2 ^ NB_BLOCKS_N cfg).
  { change 2 with (2 ^ 1) at 1. apply Z.pow_le_mono_r; lia. }
  set (i := index (line_from_address cfg a t')) in *.
  destruct (decide (i + 1 = 2 ^ NB_BLOCKS_N cfg)) as [Htop|Hlow].
  - rewrite Htop, Z.mod_same in Heq' by lia. lia.
  - rewrite Z.mod_small in Heq' by lia. lia.
Qed.

End Blocks.

(** X7. The fields of a line are within their ranges: for a well-formed
    configuration and an address of 64 bits, the offset is below
    [BLOCKS_SIZE], the index is below [NB_BLOCKS] (so that [c[l.index]] is a
    set of the store), and the tag is below 2 to the power of the bits that
    are left. *)
Theorem line_from_address_bounds (cfg : config) (a now : Z) :
  wf_config cfg -> is_ulong a ->
  0 <= offset (line_from_address cfg a now) < BLOCKS_SIZE cfg /\
  0 <= index (line_from_address cfg a now) < Z.of_nat (NB_BLOCKS cfg) /\
  0 <= tag (line_from_address cfg a now)
    < 2 ^ (64 - BLOCKS_SIZE_N cfg - NB_BLOCKS_N cfg).
Proof.
  intros Hwf Ha. pose proof Hwf as [Hs Hblock Hsets _].
  pose proof Hs as [Hb Hn]. split; [|split].
  - rewrite offset_ones, Hblock by done. apply land_ones_bounds. lia.
  - rewrite Hsets. by apply index_bounds.
  - cbn [tag line_from_address]. unfold is_ulong in Ha.
    rewrite Z.shiftr_div_pow2 by lia.
    assert (0 < 2 ^ (BLOCKS_SIZE_N cfg + NB_BLOCKS_N cfg))
      by (apply Z.pow_pos_nonneg; lia).
    split; [apply Z.div_pos; lia|].
    apply Z.div_lt_upper_bound; [lia|].
    rewrite <- Z.pow_add_r by lia.
    replace (BLOCKS_SIZE_N cfg + NB_BLOCKS_N cfg
             + (64 - BLOCKS_SIZE_N cfg - NB_BLOCKS_N cfg)) with 64 by lia.
    lia.
Qed.

Lemma line_from_address_bounds_witness :
  0 <= offset (line_from_address example_config 0x123456789ABCDEF 0)
    < BLOCKS_SIZE example_config /\
  0 <= index (line_from_address example_config 0x123456789ABCDEF 0)
    < Z.of_nat (NB_BLOCKS example_config) /\
  0 <= tag (line_from_address example_config 0x123456789ABCDEF 0)
    < 2 ^ (64 - BLOCKS_SIZE_N example_config - NB_BLOCKS_N example_config).
Proof.
  apply (line_from_address_bounds example_config 0x123456789ABCDEF 0).
  - exact example_config_wf.
  - unfold is_ulong. lia.
Defined.

(** X8. Two addresses get the same index and the same tag exactly when
    they lie in the same block, that is, when they agree above the offset
    bits: the offset plays no part in a lookup. *)
Theorem same_index_and_tag_iff_same_block (cfg : config) (a b t t' : Z) :
  shifts_defined cfg ->
  index (line_from_address cfg a t) = index (line_from_address cfg b t') /\
  tag (line_from_address cfg a t) = tag (line_from_address cfg b t') <->
  Z.shiftr a (BLOCKS_SIZE_N cfg) = Z.shiftr b (BLOCKS_SIZE_N cfg).
Proof. intros Hs. by apply same_block. Qed.

Lemma same_index_and_tag_iff_same_block_witness :
  index (line_from_address example_config 0x100 0)
  = index (line_from_address example_config 0x17F 9) /\
  tag (line_from_address example_config 0x100 0)
  = tag (line_from_address example_config 0x17F 9) <->
  Z.shiftr 0x100 (BLOCKS_SIZE_N example_config)
  = Z.shiftr 0x17F (BLOCKS_SIZE_N example_config).
Proof.
  apply (same_index_and_tag_iff_same_block example_config 0x100 0x17F 0 9).
  unfold shifts_defined. simpl. lia.
Defined.

(** X9. The block that a prefetch asks for, one block after the address
    (modulo [2^64]), selects the next set, modulo the number of sets. *)
Theorem prefetch_selects_next_set (cfg : config) (a t t' : Z) :
  wf_config cfg ->
  index (line_from_address cfg (ulong (a + BLOCKS_SIZE cfg)) t)
  = (index (line_from_address cfg a t') + 1) mod Z.of_nat (NB_BLOCKS cfg).
Proof.
  intros Hwf. rewrite (wf_sets _ Hwf). by apply next_block_index.
Qed.

Lemma prefetch_selects_next_set_witness :
  index (line_from_address prefetch_config
           (ulong (0x180 + BLOCKS_SIZE prefetch_config)) 0)
  = (index (line_from_address prefetch_config 0x180 0) + 1)
    mod Z.of_nat (NB_BLOCKS prefetch_config).
Proof.
  apply (prefetch_selects_next_set prefetch_config 0x180 0 0).
  split; [unfold shifts_defined; simpl; lia|reflexivity|reflexivity|].
  simpl. lia.
Defined.

(** * What an access leaves in the store *)

Section AfterAccess.

Variable cfg : config.
Variable clk : nat -> Z.

Lemma in_cache_any_time (c0 : cache) (a t t' : Z) :
  in_cache cfg c0 (line_from_address cfg a t)
  = in_cache cfg c0 (line_from_address cfg a t').
Proof. by apply in_cache_ext. Qed.

(** A lookup in another set than the one an insertion wrote to answers as
    before the insertion. *)
Lemma in_cache_other_set (c0 c1 : cache) (l l' : line) (now : Z) :
  add_to_cache cfg c0 l now = Some c1 ->
  Z.to_nat (index l) <> Z.to_nat (index l') ->
  in_cache cfg c1 l' = in_cache cfg c0 l'.
Proof.
  intros Hadd Hne.
  destruct (add_to_cache_inv cfg c0 c1 l now Hadd)
    as (set & p & _ & _ & _ & ->).
  unfold in_cache. by rewrite list_lookup_insert_ne.
Qed.

Lemma step_leaves_block (a : action) (s s' : sim) (t : Z) :
  PREFETCHING cfg = false \/ (wf_config cfg /\ 1 <= NB_BLOCKS_N cfg) ->
  step cfg clk a s = Some s' ->
  in_cache cfg (c s') (line_from_address cfg (address a) t) = Some true.
Proof.
  intros Hcond Hstep.
  rewrite (in_cache_any_time _ _ t (clk (ticks s))).
  destruct (step_inv cfg clk a s s' Hstep)
    as [(Hhit & -> & _)|(_ & _ & c1 & Hc1 & Hrest)]; [done|].
  pose proof (add_to_cache_then_in_cache cfg _ _ _ _ Hc1) as Hin1.
  destruct Hrest as [(_ & -> & _)|[(_ & _ & -> & _)|(Hp & _ & c2 & Hc2 & -> & _)]];
    try done.
  destruct Hcond as [Hoff|[Hwf Hsets]]; [congruence|].
  rewrite (in_cache_other_set c1 c2 _ _ _ Hc2); [done|].
  by apply next_block_other_set.
Qed.

Lemma step_leaves_next_block (a : action) (s s' : sim) (t : Z) :
  PREFETCHING cfg = true ->
  in_cache cfg (c s) (line_from_address cfg (address a) (clk (ticks s)))
  = Some false ->
  step cfg clk a s = Some s' ->
  in_cache cfg (c s')
    (line_from_address cfg (ulong (address a + BLOCKS_SIZE cfg)) t)
  = Some true.
Proof.
  intros Hp Hmiss Hstep.
  rewrite (in_cache_any_time _ _ t (clk (S (S (ticks s))))).
  destruct (step_inv cfg clk a s s' Hstep)
    as [(Hhit & _)|(_ & _ & c1 & Hc1 & Hrest)]; [congruence|].
  destruct Hrest as [(Hoff & _)|[(_ & Hin & -> & _)|(_ & _ & c2 & Hc2 & -> & _)]].
  - congruence.
  - done.
  - by eapply add_to_cache_then_in_cache.
Qed.

End AfterAccess.

(** X10. After an iteration on an address, a lookup of that address
    answers 1, whatever the clock reads: the access hit, or it inserted the
    block. This holds without prefetching, and with prefetching when the
    store has two sets or more, for then the prefetched block goes to
    another set. *)
Theorem access_leaves_block_cached (cfg : config) (clk : nat -> Z)
    (a : action) (s s' : sim) (t : Z) :
  PREFETCHING cfg = false \/ (wf_config cfg /\ 1 <= NB_BLOCKS_N cfg) ->
  step cfg clk a s = Some s' ->
  in_cache cfg (c s') (line_from_address cfg (address a) t) = Some true.
Proof. intros Hcond Hstep. by eapply step_leaves_block. Qed.

Lemma access_leaves_block_cached_witness :
  in_cache prefetch_config
    [ [ {| index := 0; offset := 0; tag := 2; last_access := 3 |};
        zero_line; zero_line; zero_line ];
      [ {| index := 1; offset := 0; tag := 1; last_access := 1 |};
        zero_line; zero_line; zero_line ] ]
    (line_from_address prefetch_config 0x180 7) = Some true.
Proof.
  apply (access_leaves_block_cached prefetch_config ticking_clock
           (read 0x180) (init prefetch_config)
           {| c := [ [ {| index := 0; offset := 0; tag := 2;
                          last_access := 3 |};
                       zero_line; zero_line; zero_line ];
                     [ {| index := 1; offset := 0; tag := 1;
                          last_access := 1 |};
                       zero_line; zero_line; zero_line ] ];
              hits := 0; misses := 2; ticks := 4 |} 7).
  - right. split; [|simpl; lia].
    split; [unfold shifts_defined; simpl; lia|reflexivity|reflexivity|].
    simpl. lia.
  - reflexivity.
Defined.

(** With prefetching and a single set of a single line, the prefetched
    block takes the place of the block just accessed. *)
Lemma one_line_prefetch_evicts_access :
  exists s',
    step one_line_config ticking_clock (read 0x100) (init one_line_config)
    = Some s' /\
    in_cache one_line_config (c s')
      (line_from_address one_line_config 0x100 0) = Some false.
Proof. eexists. split; reflexivity. Qed.

(** X11. With prefetching, after an iteration that missed on an address, a
    lookup of the address one block further (modulo [2^64]) answers 1. *)
Theorem miss_leaves_next_block_cached (cfg : config) (clk : nat -> Z)
    (a : action) (s s' : sim) (t : Z) :
  PREFETCHING cfg = true ->
  in_cache cfg (c s) (line_from_address cfg (address a) (clk (ticks s)))
  = Some false ->
  step cfg clk a s = Some s' ->
  in_cache cfg (c s')
    (line_from_address cfg (ulong (address a + BLOCKS_SIZE cfg)) t)
  = Some true.
Proof. intros Hp Hmiss Hstep. by eapply step_leaves_next_block. Qed.

Lemma miss_leaves_next_block_cached_witness :
  in_cache one_line_config
    [ [ {| index := 0; offset := 0; tag := 3; last_access := 3 |} ] ]
    (line_from_address one_line_config
       (ulong (0x100 + BLOCKS_SIZE one_line_config)) 0)
  = Some true.
Proof.
  apply (miss_leaves_next_block_cached one_line_config ticking_clock
           (read 0x100) (init one_line_config)
           {| c := [ [ {| index := 0; offset := 0; tag := 3;
                          last_access := 3 |} ] ];
              hits := 0; misses := 2; ticks := 4 |} 0); reflexivity.
Defined.

(** X12. A hit has a cause: when, in the store of a replay that returned,
    the lookup of an address whose tag is not 0 answers 1, then one of the
    records replayed had an address in the same block, or, with
    prefetching, had the address one block before. *)
Theorem hit_means_block_was_touched (cfg : config) (clk : nat -> Z)
    (records rest : list action) (d : action) (s : sim) (b t : Z) :
  shifts_defined cfg ->
  Forall (fun a => rw a <> NUL) records -> rw d = NUL ->
  replay cfg clk (records ++ d :: rest) (init cfg) = Some s ->
  tag (line_from_address cfg b t) <> 0 ->
  in_cache cfg (c s) (line_from_address cfg b t) = Some true ->
  exists a, a ∈ touched cfg records /\
    Z.shiftr a (BLOCKS_SIZE_N cfg) = Z.shiftr b (BLOCKS_SIZE_N cfg).
Proof.
  intros Hs Hrecords Hd Hreplay Hnz Hhit.
  pose proof (replay_wf cfg clk _ (init cfg) s (calloc_cache_wf cfg) Hreplay)
    as [Hlen Hrows].
  pose proof (replay_brought_in cfg clk records rest d (init cfg) s
                Hrecords Hd (calloc_cache_brought_in cfg _) Hreplay) as Hin.
  set (l := line_from_address cfg b t) in *.
  destruct (c s !! Z.to_nat (index l)) as [set|] eqn:Hset;
    [|by unfold in_cache in Hhit; rewrite Hset in Hhit].
  pose proof (Forall_lookup_1 _ _ _ set Hrows Hset) as Hset_len.
  simpl in Hset_len.
  apply (in_cache_true_iff cfg (c s) l set Hset Hset_len) in Hhit
    as (j & ln & Hln & Htag).
  destruct (Hin _ set j ln Hset Hln ltac:(congruence))
    as (a & t' & Ha & -> & Hidx).
  exists a. split; [done|].
  apply (same_block cfg a b t' t Hs). split; [|done].
  pose proof (index_nonneg cfg a t') as Hia.
  pose proof (index_nonneg cfg b t) as Hib.
  unfold l in *. lia.
Qed.

Lemma hit_means_block_was_touched_witness :
  exists a, a ∈ touched two_way_config [read 256; read 512] /\
    Z.shiftr a (BLOCKS_SIZE_N two_way_config)
    = Z.shiftr 0x17F (BLOCKS_SIZE_N two_way_config).
Proof.
  apply (hit_means_block_was_touched two_way_config ticking_clock
           [read 256; read 512] [] delimiter
           {| c := [ [ {| index := 0; offset := 0; tag := 1;
                          last_access := 1 |};
                       {| index := 0; offset := 0; tag := 2;
                          last_access := 3 |} ];
                     replicate 2 zero_line ];
              hits := 0; misses := 2; ticks := 4 |} 0x17F 0).
  - unfold shifts_defined. simpl. lia.
  - repeat constructor; discriminate.
  - reflexivity.
  - reflexivity.
  - intros Htag. vm_compute in Htag. discriminate Htag.
  - reflexivity.
Defined.

(** * The counters, the delimiter and the letters *)

Section Counters.

Variable cfg : config.
Variable clk : nat -> Z.

Lemma replay_counts_bounds (records rest : list action) (d : action) :
  Forall (fun a => rw a <> NUL) records -> rw d = NUL ->
  forall s s',
    0 <= hits s -> 0 <= misses s ->
    hits s + misses s + 2 * Z.of_nat (length records) < 2 ^ 32 ->
    replay cfg clk (records ++ d :: rest) s = Some s' ->
    let h := hits s' - hits s in
    let m := misses s' - misses s in
    let n := Z.of_nat (length records) in
    0 <= h <= n /\ n - h <= m <= 2 * (n - h).
Proof.
  intros Hrecords Hd.
  induction Hrecords as [|a records Ha _ IH]; intros s s' Hh Hm Hsum; simpl.
  - rewrite decide_True by done. intros [= <-]. lia.
  - rewrite decide_False by done.
    destruct (step cfg clk a s) as [s1|] eqn:Hstep; simpl; [|done].
    intros Hreplay.
    rewrite length_cons, Nat2Z.inj_succ in Hsum.
    assert (hits s1 = hits s + 1 /\ misses s1 = misses s \/
            hits s1 = hits s /\
            (misses s1 = misses s + 1 \/ misses s1 = misses s + 2)) as Hone.
    { destruct (step_inv cfg clk a s s1 Hstep)
        as [(_ & _ & Hh1 & Hm1)|(_ & Hh1 & c1 & _ & Hrest)].
      - left. unfold uint in Hh1. rewrite Z.mod_small in Hh1 by lia. done.
      - right. split; [done|].
        destruct Hrest as [(_ & _ & Hm1)|[(_ & _ & _ & Hm1)|(_ & _ & c2 & _ & _ & Hm1)]];
          unfold uint in Hm1; rewrite Z.mod_small in Hm1 by lia; lia. }
    specialize (IH s1 s' ltac:(lia) ltac:(lia) ltac:(lia) Hreplay).
    cbv zeta in IH. lia.
Qed.

Lemma step_address_only (a b : action) (s : sim) :
  address a = address b -> step cfg clk a s = step cfg clk b s.
Proof. intros Hab. unfold step. by rewrite Hab. Qed.

Lemma replay_address_only (xs ys : list action) :
  Forall2 (fun a b => address a = address b /\
                      (rw a = NUL <-> rw b = NUL)) xs ys ->
  forall s, replay cfg clk xs s = replay cfg clk ys s.
Proof.
  induction 1 as [|a b xs ys [Haddr Hnul] _ IH]; intros s; [done|].
  simpl. destruct (decide (rw a = NUL)) as [Ha|Ha].
  - by rewrite decide_True by (by apply Hnul).
  - rewrite decide_False by (by rewrite <- Hnul).
    rewrite (step_address_only a b s Haddr).
    destruct (step cfg clk b s); simpl; [apply IH|done].
Qed.

Lemma replay_cut (records rest rest' : list action) (d : action) :
  rw d = NUL ->
  forall s, replay cfg clk (records ++ d :: rest) s
            = replay cfg clk (records ++ d :: rest') s.
Proof.
  intros Hd. induction records as [|a records IH]; intros s; simpl.
  - by rewrite !decide_True by done.
  - destruct (decide (rw a = NUL)); [done|].
    destruct (step cfg clk a s); simpl; [apply IH|done].
Qed.

Lemma replay_no_delimiter (actions : list action) :
  Forall (fun a => rw a <> NUL) actions ->
  forall s, replay cfg clk actions s = None.
Proof.
  induction 1 as [|a actions Ha _ IH]; intros s; simpl; [done|].
  rewrite decide_False by done.
  destruct (step cfg clk a s); simpl; [apply IH|done].
Qed.

End Counters.

(** X13. With or without prefetching, for an array of [n] records before
    the delimiter, [2 * n] below [2^32], a run that ends prints [h] hits and
    [m] misses with [h] at most [n] and [m] between [n - h] and
    [2 * (n - h)]: every record that did not hit counts one miss, or two
    when its prefetch missed as well. *)
Theorem counters_bounds (cfg : config) (clk : nat -> Z)
    (records rest : list action) (d : action) (h m : Z) :
  Forall (fun a => rw a <> NUL) records -> rw d = NUL ->
  2 * Z.of_nat (length records) < 2 ^ 32 ->
  execute_mem cfg clk (records ++ d :: rest) = Some (h, m) ->
  0 <= h <= Z.of_nat (length records) /\
  Z.of_nat (length records) - h <= m <= 2 * (Z.of_nat (length records) - h).
Proof.
  intros Hrecords Hd Hlen. unfold execute_mem.
  destruct (replay cfg clk _ (init cfg)) as [s'|] eqn:Hreplay; simpl; [|done].
  intros [= <- <-].
  pose proof (replay_counts_bounds cfg clk records rest d Hrecords Hd
                (init cfg) s') as Hb.
  simpl in Hb. specialize (Hb ltac:(lia) ltac:(lia) ltac:(lia) Hreplay).
  lia.
Qed.

Lemma counters_bounds_witness :
  0 <= 1 <= Z.of_nat (length [read 256; read 384]) /\
  Z.of_nat (length [read 256; read 384]) - 1 <= 2
  <= 2 * (Z.of_nat (length [read 256; read 384]) - 1).
Proof.
  apply (counters_bounds prefetch_config ticking_clock
           [read 256; read 384] [] delimiter 1 2).
  - repeat constructor; discriminate.
  - reflexivity.
  - reflexivity.
  - reflexivity.
Defined.



(** X15. The replay stops at the first element whose [rw] is the
    delimiter: what the array holds after it has no effect on the
    counters. *)
Theorem execute_mem_stops_at_delimiter (cfg : config) (clk : nat -> Z)
    (records rest rest' : list action) (d : action) :
  rw d = NUL ->
  execute_mem cfg clk (records ++ d :: rest)
  = execute_mem cfg clk (records ++ d :: rest').
Proof.
  intros Hd. unfold execute_mem.
  by rewrite (replay_cut cfg clk records rest rest' d Hd).
Qed.

Lemma execute_mem_stops_at_delimiter_witness :
  execute_mem example_config ticking_clock
    ([read 256] ++ delimiter :: [read 512; read 768])
  = execute_mem example_config ticking_clock ([read 256] ++ delimiter :: []).
Proof.
  apply (execute_mem_stops_at_delimiter example_config ticking_clock
           [read 256] [read 512; read 768] [] delimiter).
  reflexivity.
Defined.

(** X16. An array without a delimiter has no result: the loop, which has
    no other bound, reads past the last element. *)
Theorem execute_mem_needs_delimiter (cfg : config) (clk : nat -> Z)
    (actions : list action) :
  Forall (fun a => rw a <> NUL) actions ->
  execute_mem cfg clk actions = None.
Proof.
  intros Hall. unfold execute_mem.
  by rewrite (replay_no_delimiter cfg clk actions Hall).
Qed.

Lemma execute_mem_needs_delimiter_witness :
  execute_mem example_config ticking_clock [read 256; read 512] = None.
Proof.
  apply (execute_mem_needs_delimiter example_config ticking_clock
           [read 256; read 512]).
  repeat constructor; discriminate.
Defined.

(** X17. Reads and writes are replayed alike: two arrays with the same
    addresses, and the delimiter at the same places, give the same
    counters, whatever the letters of their records. *)
Theorem execute_mem_ignores_rw (cfg : config) (clk : nat -> Z)
    (xs ys : list action) :
  Forall2 (fun a b => address a = address b /\
                      (rw a = NUL <-> rw b = NUL)) xs ys ->
  execute_mem cfg clk xs = execute_mem cfg clk ys.
Proof.
  intros Hsame. unfold execute_mem.
  by rewrite (replay_address_only cfg clk xs ys Hsame).
Qed.

Lemma execute_mem_ignores_rw_witness :
  execute_mem example_config ticking_clock
    [read 256; read 256; delimiter]
  = execute_mem example_config ticking_clock
      [ {| rw := "W"%char; address := 256 |};
        {| rw := "W"%char; address := 256 |}; delimiter ].
Proof.
  apply (execute_mem_ignores_rw example_config ticking_clock
           [read 256; read 256; delimiter]
           [ {| rw := "W"%char; address := 256 |};
             {| rw := "W"%char; address := 256 |}; delimiter ]).
  repeat constructor; simpl; intros; discriminate.
Defined.

(** * Reading the actions *)

Section Reader.

Lemma capacity_bounds (k : Z) :
  0 <= k -> k < 40 * (k / 40 + 1) <= k + 40.
Proof. intros Hk. Z.div_mod_to_equations. lia. Qed.

Lemma capacity_succ (k : Z) :
  0 <= k ->
  40 * ((k + 1) / 40 + 1)
  = if k + 2 >? 40 * (k / 40 + 1) then 40 * (k / 40 + 1) + 40
    else 40 * (k / 40 + 1).
Proof.
  intros Hk. destruct (Z.gtb_spec (k + 2) (40 * (k / 40 + 1)));
    Z.div_mod_to_equations; lia.
Qed.

Lemma reader_init_inv : reader_inv [] reader_init.
Proof. by split_and!. Qed.

(** The body of the loop writes inside the array and keeps the invariant. *)
Lemma reader_body_inv (cells : list cell) (st : reader)
    (r : option ascii) (a : option Z) :
  reader_inv cells st ->
  Z.of_nat (length cells) + 80 < 2 ^ 32 ->
  exists st' cl,
    reader_body r a st = Some st' /\
    reader_inv (cells ++ [cl]) st' /\
    cl = {| cell_rw := local_rw st'; cell_address := local_address st' |} /\
    local_rw st' = match r with Some x => Some x | None => local_rw st end /\
    local_address st'
    = match a with Some x => Some x | None => local_address st end.
Proof.
  intros (Hcur & Hnb & Hact) Hsmall.
  set (k := length cells) in *. set (K := Z.of_nat k) in *.
  pose proof (capacity_bounds K ltac:(lia)) as Hcap.
  pose proof (capacity_succ K ltac:(lia)) as Hsucc.
  unfold reader_body. rewrite Hcur.
  assert (uint (K + 2) = K + 2) as -> by (apply Z.mod_small; lia).
  assert (uint (K + 1) = K + 1) as -> by (apply Z.mod_small; lia).
  rewrite Hact, Hnb.
  set (nb' := if K + 2 >? 40 * (K / 40 + 1)
              then uint (40 * (K / 40 + 1) + 40) else 40 * (K / 40 + 1)).
  assert (nb' = 40 * ((K + 1) / 40 + 1)) as Hnb'.
  { rewrite Hsucc. unfold nb'. destruct (K + 2 >? 40 * (K / 40 + 1)); [|done].
    apply Z.mod_small. lia. }
  set (arr := if K + 2 >? 40 * (K / 40 + 1)
              then resize (Z.to_nat nb') fresh_cell
                     (cells ++ replicate (Z.to_nat (40 * (K / 40 + 1)) - k)
                                fresh_cell)
              else cells ++ replicate (Z.to_nat (40 * (K / 40 + 1)) - k)
                              fresh_cell).
  assert (arr = cells ++ replicate (S (Z.to_nat nb' - S k)) fresh_cell)
    as Harr.
  { unfold arr. rewrite Hnb'.
    destruct (Z.gtb_spec (K + 2) (40 * (K / 40 + 1))) as [Hgrow|Hroom].
    - rewrite resize_ge by (rewrite length_app, length_replicate; lia).
      rewrite <- app_assoc, <- replicate_add. do 2 f_equal.
      rewrite length_app, length_replicate. lia.
    - do 2 f_equal. lia. }
  replace (Z.to_nat K) with k by lia.
  assert (arr !! k = Some fresh_cell) as Hfresh.
  { rewrite Harr, lookup_app_r by done. by rewrite Nat.sub_diag. }
  change (if K + 2 >? 40 * (K / 40 + 1)
          then resize (Z.to_nat nb') fresh_cell
                 (cells ++ replicate (Z.to_nat (40 * (K / 40 + 1)) - k)
                            fresh_cell)
          else cells ++ replicate (Z.to_nat (40 * (K / 40 + 1)) - k)
                          fresh_cell) with arr.
  rewrite Hfresh. simpl.
  eexists _, _. split; [done|]. split; [|by split_and!].
  unfold reader_inv. cbn [actions nb_actions current_action local_rw
                          local_address].
  rewrite length_app. cbn [length]. fold k.
  replace (Z.of_nat (k + 1)%nat) with (K + 1) by lia.
  split_and!; [done|done|].
  rewrite Harr, insert_app_r_alt by done. fold k.
  rewrite Nat.sub_diag. cbn [insert list_insert].
  rewrite <- app_assoc. cbn [app replicate]. simpl.
  do 3 f_equal. lia.
Qed.

(** The loop over calls that all stored something, up to the call that
    returns [EOF]. *)
Lemma reader_loop_inv (stored : list (option ascii * option Z))
    (more : list scan) :
  forall cells st,
    reader_inv cells st ->
    Z.of_nat (length cells + length stored) + 80 <= 2 ^ 32 ->
    exists st' cells',
      reader_loop (map stored_scan stored ++ Scan_EOF :: more) st = Some st' /\
      reader_inv (cells ++ cells') st' /\
      length cells' = length stored.
Proof.
  induction stored as [|[r a] stored IH]; intros cells st Hinv Hsmall; simpl.
  - exists st, []. by rewrite app_nil_r.
  - destruct (reader_body_inv cells st r a Hinv) as (st1 & cl & Hbody & Hinv1 & _).
    { simpl in Hsmall. lia. }
    rewrite Hbody. simpl.
    destruct (IH (cells ++ [cl]) st1 Hinv1) as (st' & cells' & Hloop & Hinv' & Hlen).
    { rewrite length_app. simpl in *. lia. }
    exists st', (cl :: cells'). split_and!; [done| |simpl; lia].
    by rewrite <- app_assoc in Hinv'.
Qed.

(** The same when every call stored a character: the members [rw] of the
    elements written are these characters. *)
Lemma reader_loop_letters (stored : list (option ascii * option Z))
    (more : list scan) :
  Forall (fun p => is_Some p.1) stored ->
  forall cells st,
    reader_inv cells st ->
    Z.of_nat (length cells + length stored) + 80 <= 2 ^ 32 ->
    exists st' cells',
      reader_loop (map stored_scan stored ++ Scan_EOF :: more) st = Some st' /\
      reader_inv (cells ++ cells') st' /\
      map cell_rw cells' = map fst stored.
Proof.
  induction 1 as [|[r a] stored [x Hr] _ IH]; intros cells st Hinv Hsmall;
    simpl.
  - exists st, []. by rewrite app_nil_r.
  - simpl in Hr. subst r.
    destruct (reader_body_inv cells st (Some x) a Hinv)
      as (st1 & cl & Hbody & Hinv1 & Hcl & Hrw & _).
    { simpl in Hsmall. lia. }
    rewrite Hbody. simpl.
    destruct (IH (cells ++ [cl]) st1 Hinv1)
      as (st' & cells' & Hloop & Hinv' & Hletters).
    { rewrite length_app. simpl in *. lia. }
    exists st', (cl :: cells'). split_and!; [done| |].
    + by rewrite <- app_assoc in Hinv'.
    + simpl. rewrite Hletters, Hcl. simpl. by rewrite Hrw.
Qed.

(** After the loop, the delimiter goes into the first element that was not
    written. *)
Lemma reader_finish (cells : list cell) (st : reader) :
  reader_inv cells st ->
  exists cl, actions st !! Z.to_nat (current_action st) = Some cl /\
    <[Z.to_nat (current_action st) :=
        {| cell_rw := Some NUL; cell_address := cell_address cl |}]>
      (actions st)
    = cells ++ delimiter_cell
        :: replicate (Z.to_nat (40 * (Z.of_nat (length cells) / 40 + 1))
                      - S (length cells)) fresh_cell.
Proof.
  intros (Hcur & Hnb & Hact).
  pose proof (capacity_bounds (Z.of_nat (length cells)) ltac:(lia)) as Hcap.
  rewrite Hcur, Hact, Hnb.
  replace (Z.to_nat (Z.of_nat (length cells))) with (length cells) by lia.
  replace (Z.to_nat (40 * (Z.of_nat (length cells) / 40 + 1)) - length cells)%nat
    with (S (Z.to_nat (40 * (Z.of_nat (length cells) / 40 + 1))
             - S (length cells))) by lia.
  exists fresh_cell. split.
  - rewrite lookup_app_r by done. by rewrite Nat.sub_diag.
  - rewrite insert_app_r_alt by done. by rewrite Nat.sub_diag.
Qed.

End Reader.

(** A replay reads the members of the records before the delimiter and the
    [rw] of the delimiter, nothing else of the array. *)
Lemma replay_reads_prefix (cfg : config) (clk : nat -> Z)
    (records rest rest' : list action) (d d' : action) :
  rw d = NUL -> rw d' = NUL ->
  forall s, replay cfg clk (records ++ d :: rest) s
            = replay cfg clk (records ++ d' :: rest') s.
Proof.
  intros Hd Hd'. induction records as [|a records IH]; intros s; simpl.
  - by rewrite !decide_True by done.
  - destruct (decide (rw a = NUL)); [done|].
    destruct (step cfg clk a s); simpl; [apply IH|done].
Qed.

(** X18. [read_action_from_file] stays inside its array. For a file that
    [fscanf] reads in [n] calls before the one that returns [EOF], [n + 80]
    at most [2^32], whatever the calls stored, every write of the loop and
    the write of the delimiter fall inside the array; the array returned has
    [40 * (n / 40 + 1)] elements: the [n] written ones, the delimiter, whose
    [address] was never assigned, and elements as allocated. *)
Theorem read_action_from_file_in_bounds
    (stored : list (option ascii * option Z)) (more : list scan) :
  Z.of_nat (length stored) + 80 <= 2 ^ 32 ->
  exists cells,
    length cells = length stored /\
    read_action_from_file (map stored_scan stored ++ Scan_EOF :: more)
    = Some (cells ++ delimiter_cell
              :: replicate (Z.to_nat (40 * (Z.of_nat (length stored) / 40 + 1))
                            - S (length stored)) fresh_cell) /\
    length (cells ++ delimiter_cell
              :: replicate (Z.to_nat (40 * (Z.of_nat (length stored) / 40 + 1))
                            - S (length stored)) fresh_cell)
    = Z.to_nat (40 * (Z.of_nat (length stored) / 40 + 1)).
Proof.
  intros Hsmall.
  destruct (reader_loop_inv stored more [] reader_init reader_init_inv)
    as (st & cells & Hloop & Hinv & Hlen); [simpl; lia|].
  simpl in Hinv.
  destruct (reader_finish cells st Hinv) as (cl & Hcl & Hres).
  exists cells. split_and!; [done| |].
  - unfold read_action_from_file. rewrite Hloop. simpl. rewrite Hcl. simpl.
    by rewrite Hres, Hlen.
  - pose proof (capacity_bounds (Z.of_nat (length stored)) ltac:(lia)).
    rewrite length_app. simpl. rewrite length_replicate. lia.
Qed.

Lemma read_action_from_file_in_bounds_witness :
  exists cells,
    length cells = length [(Some "R"%char, Some 256); (Some "x"%char, None)] /\
    read_action_from_file
      (map stored_scan [(Some "R"%char, Some 256); (Some "x"%char, None)]
       ++ Scan_EOF :: [])
    = Some (cells ++ delimiter_cell
              :: replicate
                   (Z.to_nat
                      (40 * (Z.of_nat
                               (length [(Some "R"%char, Some 256);
                                        (Some "x"%char, None)]) / 40 + 1))
                    - S (length [(Some "R"%char, Some 256);
                                 (Some "x"%char, None)])) fresh_cell) /\
    length (cells ++ delimiter_cell
              :: replicate
                   (Z.to_nat
                      (40 * (Z.of_nat
                               (length [(Some "R"%char, Some 256);
                                        (Some "x"%char, None)]) / 40 + 1))
                    - S (length [(Some "R"%char, Some 256);
                                 (Some "x"%char, None)])) fresh_cell)
    = Z.to_nat
        (40 * (Z.of_nat
                 (length [(Some "R"%char, Some 256);
                          (Some "x"%char, None)]) / 40 + 1)).
Proof.
  apply (read_action_from_file_in_bounds
           [(Some "R"%char, Some 256); (Some "x"%char, None)] []).
  simpl. lia.
Defined.

Lemma read_action_from_file_letters_eq
    (stored : list (option ascii * option Z)) (more : list scan) :
  Z.of_nat (length stored) + 80 <= 2 ^ 32 ->
  Forall (fun p => is_Some p.1) stored ->
  exists cells,
    map cell_rw cells = map fst stored /\
    read_action_from_file (map stored_scan stored ++ Scan_EOF :: more)
    = Some (cells ++ delimiter_cell
              :: replicate (Z.to_nat (40 * (Z.of_nat (length stored) / 40 + 1))
                            - S (length stored)) fresh_cell).
Proof.
  intros Hsmall Hletters.
  destruct (reader_loop_letters stored more Hletters [] reader_init
              reader_init_inv) as (st & cells & Hloop & Hinv & Hrw);
    [simpl; lia|].
  simpl in Hinv.
  destruct (reader_finish cells st Hinv) as (cl & Hcl & Hres).
  assert (length cells = length stored) as Hlen.
  { by rewrite <- (length_map cell_rw), Hrw, length_map. }
  exists cells. split; [done|].
  unfold read_action_from_file. rewrite Hloop. simpl. rewrite Hcl. simpl.
  by rewrite Hres, Hlen.
Qed.

(** X19. The letters of the array. When every call of [fscanf] before the
    one that returns [EOF] stored a character into [rw], the members [rw] of
    the first elements of the array returned are these characters, in
    order, and the element after them is the delimiter. Nothing is said of
    the members [address]: what a call leaves in [address] is not the
    program's doing. *)
Theorem read_action_from_file_letters
    (stored : list (option ascii * option Z)) (more : list scan) :
  Z.of_nat (length stored) + 80 <= 2 ^ 32 ->
  Forall (fun p => is_Some p.1) stored ->
  exists cells,
    map cell_rw cells = map fst stored /\
    read_action_from_file (map stored_scan stored ++ Scan_EOF :: more)
    = Some (cells ++ delimiter_cell
              :: replicate (Z.to_nat (40 * (Z.of_nat (length stored) / 40 + 1))
                            - S (length stored)) fresh_cell).
Proof. intros Hsmall Hletters. by apply read_action_from_file_letters_eq. Qed.

Lemma read_action_from_file_letters_witness :
  exists cells,
    map cell_rw cells
    = map fst [(Some "R"%char, None); (Some "W"%char, Some 512)] /\
    read_action_from_file
      (map stored_scan [(Some "R"%char, None); (Some "W"%char, Some 512)]
       ++ Scan_EOF :: [])
    = Some (cells ++ delimiter_cell
              :: replicate
                   (Z.to_nat
                      (40 * (Z.of_nat
                               (length [(Some "R"%char, @None Z);
                                        (Some "W"%char, Some 512)]) / 40 + 1))
                    - S (length [(Some "R"%char, @None Z);
                                 (Some "W"%char, Some 512)])) fresh_cell).
Proof.
  apply (read_action_from_file_letters
           [(Some "R"%char, None); (Some "W"%char, Some 512)] []).
  - simpl. lia.
  - repeat constructor; by eexists.
Defined.

(** X20. [main] hands the array of [read_action_from_file] to
    [execute_mem]. When every call of [fscanf] before the one that returns
    [EOF] stored a character into [rw], then, whatever the memory holds in
    the members that were never assigned, the array as [execute_mem] finds
    it is a run of as many records as there were calls, with the letters
    read, followed by an element whose [rw] is the delimiter; the replay
    reads nothing after that element: its result is that of the replay of
    these records followed by the delimiter. *)
Theorem execute_mem_after_read (cfg : config) (clk : nat -> Z)
    (stored : list (option ascii * option Z)) (more : list scan)
    (arr : list cell) (acts : list action) :
  Z.of_nat (length stored) + 80 <= 2 ^ 32 ->
  Forall (fun p => is_Some p.1) stored ->
  read_action_from_file (map stored_scan stored ++ Scan_EOF :: more)
  = Some arr ->
  memory_holds arr acts ->
  exists records d rest,
    acts = records ++ d :: rest /\
    length records = length stored /\
    map (fun a => Some (rw a)) records = map fst stored /\
    rw d = NUL /\
    execute_mem cfg clk acts = execute_mem cfg clk (records ++ [delimiter]).
Proof.
  intros Hsmall Hletters Hread Hmem.
  destruct (read_action_from_file_letters_eq stored more Hsmall Hletters)
    as (cells & Hrw & Heq).
  rewrite Heq in Hread. injection Hread as <-.
  apply Forall2_app_inv_l in Hmem as (records & acts2 & Hrec & Hrest & ->).
  apply Forall2_cons_inv_l in Hrest as (d & rest & [Hd _] & _ & ->).
  exists records, d, rest.
  assert (Forall (fun cl => is_Some (cell_rw cl)) cells) as Hsome.
  { apply Forall_map. rewrite Hrw. by apply Forall_map. }
  assert (map (fun a => Some (rw a)) records = map cell_rw cells) as Hsame.
  { clear -Hrec Hsome.
    induction Hrec as [|cl a cells records [Hcl _] _ IH]; [done|].
    apply Forall_cons in Hsome as [[r Hr] Hsome].
    simpl. rewrite (IH Hsome), Hr. by rewrite (Hcl r Hr). }
  split_and!; [done| | |by apply Hd|].
  - by rewrite <- (length_map (fun a => Some (rw a))), Hsame, Hrw, length_map.
  - by rewrite Hsame.
  - unfold execute_mem.
    by rewrite (replay_reads_prefix cfg clk records rest [] d delimiter
                  (Hd NUL eq_refl) eq_refl).
Qed.

Lemma execute_mem_after_read_witness :
  exists records d rest,
    [ {| rw := "R"%char; address := 0xaaaaaaaa00000100 |};
      {| rw := "W"%char; address := 512 |};
      {| rw := NUL; address := 77 |} ] ++ replicate 37 (read 9)
    = records ++ d :: rest /\
    length records
    = length [(Some "R"%char, @None Z); (Some "W"%char, Some 512)] /\
    map (fun a => Some (rw a)) records
    = map fst [(Some "R"%char, @None Z); (Some "W"%char, Some 512)] /\
    rw d = NUL /\
    execute_mem example_config ticking_clock
      ([ {| rw := "R"%char; address := 0xaaaaaaaa00000100 |};
         {| rw := "W"%char; address := 512 |};
         {| rw := NUL; address := 77 |} ] ++ replicate 37 (read 9))
    = execute_mem example_config ticking_clock (records ++ [delimiter]).
Proof.
  apply (execute_mem_after_read example_config ticking_clock
           [(Some "R"%char, None); (Some "W"%char, Some 512)] []
           ([ {| cell_rw := Some "R"%char; cell_address := None |};
              {| cell_rw := Some "W"%char; cell_address := Some 512 |} ]
            ++ delimiter_cell :: replicate 37 fresh_cell)).
  - simpl. lia.
  - repeat constructor; by eexists.
  - reflexivity.
  - unfold memory_holds. simpl.
    repeat (constructor; [split; intros ? Heq; by simplify_eq/=|]).
    constructor.
Defined.
